(** * gen_reject: the rule-list generator of scripts/gen_reject.py

    A shallow embedding of the script: the Python [str] operations it uses,
    the two format adapters, the dynamic-label promoter, the suffix
    generalisation engine of [simplify_rules], the sorter and [main] with
    its effects written out, followed by the properties of the
    specification that concern them.

    Text is modelled on 7-bit characters: a [string] is a Python [str] whose
    code points are all below 128, which is where the script's upstream
    lists live (domain names, CIDR blocks, regular expressions).  The
    character classes below are Python's on that range. *)

From stdpp Require Import base decidable option list gmap strings sorting.
From Stdlib Require Import Ascii ZArith Lia.

#[local] Set Warnings "-clear-no-such-hyp".

Local Open Scope nat_scope.

(** ** Python [str] primitives *)

Module Str.

(** [str.isspace] on one character (also the class [\s] of [re] on
    [str] patterns): TAB, LF, VT, FF, CR, FS, GS, RS, US and SPACE. *)
Definition is_space (c : ascii) : bool :=
  match c with
  | "009" | "010" | "011" | "012" | "013"
  | "028" | "029" | "030" | "031" | " " => true
  | _ => false
  end%char.

(** The line boundaries of [str.splitlines]: LF, VT, FF, CR, FS, GS, RS. *)
Definition is_linebreak (c : ascii) : bool :=
  match c with
  | "010" | "011" | "012" | "013" | "028" | "029" | "030" => true
  | _ => false
  end%char.

(** The class [[0-9]]. *)
Definition is_digit (c : ascii) : bool :=
  match c with
  | "0" | "1" | "2" | "3" | "4" | "5" | "6" | "7" | "8" | "9" => true
  | _ => false
  end%char.

Definition is_upper (c : ascii) : bool :=
  let n := nat_of_ascii c in (65 <=? n) && (n <=? 90).

Definition is_lower (c : ascii) : bool :=
  let n := nat_of_ascii c in (97 <=? n) && (n <=? 122).

Definition lower_char (c : ascii) : ascii :=
  if is_upper c then ascii_of_nat (nat_of_ascii c + 32) else c.

Definition upper_char (c : ascii) : ascii :=
  if is_lower c then ascii_of_nat (nat_of_ascii c - 32) else c.

Fixpoint map (f : ascii → ascii) (s : string) : string :=
  match s with
  | EmptyString => EmptyString
  | String c t => String (f c) (map f t)
  end.

Fixpoint forallb (p : ascii → bool) (s : string) : bool :=
  match s with
  | EmptyString => true
  | String c t => p c && forallb p t
  end.

Fixpoint existsb (p : ascii → bool) (s : string) : bool :=
  match s with
  | EmptyString => false
  | String c t => p c || existsb p t
  end.

(** [s.lower()] and [s.upper()]. *)
Definition lower : string → string := map lower_char.
Definition upper : string → string := map upper_char.

(** Truthiness of a [str]: [if s] / [if not s]. *)
Definition nonempty (s : string) : bool :=
  match s with EmptyString => false | String _ _ => true end.

(** [s.startswith(p)] and [s.endswith(p)]. *)
Fixpoint startswith (p s : string) : bool :=
  match p, s with
  | EmptyString, _ => true
  | String a p', String b s' => bool_decide (a = b) && startswith p' s'
  | String _ _, EmptyString => false
  end.

Fixpoint endswith_char (c : ascii) (s : string) : bool :=
  match s with
  | EmptyString => false
  | String a EmptyString => bool_decide (a = c)
  | String _ t => endswith_char c t
  end.

(** [s.lstrip()], [s.rstrip()], [s.strip()] with no argument. *)
Fixpoint lstrip (s : string) : string :=
  match s with
  | EmptyString => EmptyString
  | String c t => if is_space c then lstrip t else s
  end.

Fixpoint rstrip (s : string) : string :=
  match s with
  | EmptyString => EmptyString
  | String c t =>
      match rstrip t with
      | EmptyString => if is_space c then EmptyString else String c EmptyString
      | r => String c r
      end
  end.

Definition strip (s : string) : string := rstrip (lstrip s).

(** [s.split(sep)] for a one-character separator: always at least one
    field, empty fields kept. *)
Fixpoint split (sep : ascii) (s : string) : list string :=
  match s with
  | EmptyString => [EmptyString]
  | String c t =>
      if bool_decide (c = sep) then EmptyString :: split sep t
      else match split sep t with
           | h :: r => String c h :: r
           | [] => [String c EmptyString]
           end
  end.

(** [sep.join(parts)]. *)
Fixpoint join (sep : string) (parts : list string) : string :=
  match parts with
  | [] => EmptyString
  | [x] => x
  | x :: rest => x +:+ sep +:+ join sep rest
  end.

(** [s.splitlines()]: CR LF is one boundary, and a final boundary does
    not open an empty last line. *)
Fixpoint splitlines (s : string) : list string :=
  match s with
  | EmptyString => []
  | String c t =>
      if is_linebreak c then
        match t with
        | String c' t' =>
            if bool_decide (c = "013"%char) && bool_decide (c' = "010"%char)
            then EmptyString :: splitlines t'
            else EmptyString :: splitlines t
        | EmptyString => [EmptyString]
        end
      else match splitlines t with
           | h :: r => String c h :: r
           | [] => [String c EmptyString]
           end
  end.

(** [s.partition(",")]: head, and the remainder after the first
    separator (empty when there is none). *)
Fixpoint partition (sep : ascii) (s : string) : string * string :=
  match s with
  | EmptyString => (EmptyString, EmptyString)
  | String c t =>
      if bool_decide (c = sep) then (EmptyString, t)
      else let '(h, r) := partition sep t in (String c h, r)
  end.

End Str.

(** ** Regular expressions of the script *)

(** [.*$] tried at the start of [s], without DOTALL or MULTILINE: the
    dot takes everything up to a line feed and [$] holds at the end of the
    text or before a line feed that ends it.  The result is what the match
    leaves unconsumed. *)
Fixpoint dot_star_end (s : string) : option string :=
  match s with
  | EmptyString => Some EmptyString
  | String c t =>
      if bool_decide (c = "010"%char) then
        match t with EmptyString => Some s | _ => None end
      else dot_star_end t
  end.

(** The alternation [(#|//|;)] at the start of [s]: the text after it. *)
Definition comment_marker (s : string) : option string :=
  match s with
  | String "#" t => Some t
  | String ";" t => Some t
  | String "/" (String "/" t) => Some t
  | _ => None
  end.

(** INLINE_COMMENT_RE = [\s+(#|//|;).*$] tried at the start of [s]. The
    markers are not blank, so [\s+] has to take the whole blank run. *)
Definition inline_comment_at (s : string) : option string :=
  match s with
  | String c t =>
      if Str.is_space c then
        match comment_marker (Str.lstrip t) with
        | Some body => dot_star_end body
        | None => None
        end
      else None
  | EmptyString => None
  end.

(** [INLINE_COMMENT_RE.sub] with the empty replacement: the leftmost
    match is cut out; what it leaves (nothing, or one final line feed)
    cannot match again. *)
Fixpoint sub_inline_comment (s : string) : string :=
  match s with
  | EmptyString => EmptyString
  | String c t =>
      match inline_comment_at s with
      | Some rest => rest
      | None => String c (sub_inline_comment t)
      end
  end.

Definition strip_inline_comment (line : string) : string :=
  Str.strip (sub_inline_comment line).

(** [\$$] after [.*]: a dollar sign that ends the text, or is followed
    only by a final line feed. *)
Fixpoint dot_star_dollar_end (s : string) : bool :=
  match s with
  | EmptyString => false
  | String c t =>
      (bool_decide (c = "$"%char) &&
         match t with
         | EmptyString => true
         | String "010" EmptyString => true
         | _ => false
         end)
      || (negb (bool_decide (c = "010"%char)) && dot_star_dollar_end t)
  end.

(** [REGEX_HAS_BOUNDARY.match(s)] with REGEX_HAS_BOUNDARY = [^\^.*\$$]. *)
Definition regex_has_boundary (s : string) : bool :=
  match s with
  | String "^" t => dot_star_dollar_end t
  | _ => false
  end.

Definition normalize_regex (value : string) : string :=
  let value := Str.strip value in
  if negb (regex_has_boundary value) then
    let value := if negb (Str.startswith "^" value) then "^" +:+ value else value in
    let value := if negb (Str.endswith_char "$" value) then value +:+ "$" else value in
    value
  else value.

(** ** Rule model and tables *)

(** [Rule]: a frozen dataclass, compared and hashed field by field. *)
Record Rule := mkRule {
  rtype : string;
  value : string;
  options : list string
}.

Global Instance Rule_eq_dec : EqDecision Rule.
Proof. solve_decision. Defined.

Global Instance Rule_countable : Countable Rule.
Proof.
  refine (inj_countable' (λ r, (rtype r, value r, options r))
            (λ t, mkRule t.1.1 t.1.2 t.2) _).
  by intros [].
Defined.

(** [Rule.to_line]. *)
Definition to_line (r : Rule) : string :=
  Str.join "," (rtype r :: value r :: options r).

Record Source := mkSource {
  kind : string;
  url : string;
  description : string
}.

Definition SOURCES : list Source :=
  [ mkSource "quanx"
      "https://raw.githubusercontent.com/enriquephl/QuantumultX_config/main/filters/NoMalwares.conf"
      "NoMalwares (Quantumult X)";
    mkSource "quanx"
      "https://raw.githubusercontent.com/Elysian-Realme/FuGfConfig/main/ConfigFile/QuantumultX/FuckRogueSoftwareRules.conf"
      "FuckRogueSoftwareRules (Quantumult X)";
    mkSource "surge"
      "https://raw.githubusercontent.com/SukkaLab/ruleset.skk.moe/master/List/non_ip/reject-no-drop.conf"
      "Reject No Drop (Surge)" ].

Definition TYPE_MAP_QUANX : gmap string string :=
  list_to_map
    [ ("HOST", "DOMAIN");
      ("HOST-SUFFIX", "DOMAIN-SUFFIX");
      ("HOST-KEYWORD", "DOMAIN-KEYWORD");
      ("HOST-WILDCARD", "DOMAIN-WILDCARD");
      ("HOST-REGEX", "DOMAIN-REGEX");
      ("IP-CIDR", "IP-CIDR");
      ("IP6-CIDR", "IP-CIDR6") ].

Definition TYPE_ORDER : gmap string Z :=
  list_to_map
    [ ("DOMAIN", 0%Z);
      ("DOMAIN-SUFFIX", 1%Z);
      ("DOMAIN-KEYWORD", 2%Z);
      ("DOMAIN-WILDCARD", 3%Z);
      ("DOMAIN-REGEX", 4%Z);
      ("IP-CIDR", 5%Z);
      ("IP-CIDR6", 6%Z) ].

Definition DOMAIN_LIKE_TYPES : gset string :=
  {[ "DOMAIN"; "DOMAIN-SUFFIX"; "DOMAIN-KEYWORD"; "DOMAIN-WILDCARD" ]}.

(** [TYPE_ORDER.get(t, 99)]. *)
Definition type_order (t : string) : Z := default 99%Z (TYPE_ORDER !! t).

(** ** Format adapters *)

(** What one pass of an adapter's loop does with a line: [continue]
    silently, [continue] after the warning on stderr, or [yield]. *)
Inductive line_result :=
  | Skipped
  | Unsupported (kind_raw : string)
  | Yielded (r : Rule).

(** The test that opens both loops: blank, or a whole-line comment. *)
Definition is_blank_or_comment (line : string) : bool :=
  negb (Str.nonempty line) || Str.startswith "#" line
  || Str.startswith "//" line || Str.startswith ";" line.

(** [parts]: the comma-separated fields of a line, each stripped. *)
Definition fields (line : string) : list string :=
  Str.strip <$> Str.split "," line.

(** The value normalisation both adapters end with. *)
Definition normalize_value (kind value : string) : string :=
  let value := if bool_decide (kind ∈ DOMAIN_LIKE_TYPES) then Str.lower value else value in
  if bool_decide (kind = "DOMAIN-REGEX") then normalize_regex value else value.

(** Lines 129-133 of the script: the options of a Quantumult X line, from
    [parts]. *)
Definition quanx_options (parts : list string) : list string :=
  let remainder := filter (λ item, Str.nonempty item) (drop 2 parts) in
  match remainder with
  | [] => []
  | _ :: remainder =>
      Str.strip <$> filter (λ item, Str.nonempty (Str.strip item)) remainder
  end.

Definition parse_quanx_line (raw_line : string) : line_result :=
  let line := Str.strip raw_line in
  if is_blank_or_comment line then Skipped else
  let line := strip_inline_comment line in
  if negb (Str.nonempty line) then Skipped else
  let parts := fields line in
  match parts with
  | p0 :: p1 :: _ =>
      let kind_raw := Str.upper p0 in
      match TYPE_MAP_QUANX !! kind_raw with
      | None => Unsupported kind_raw
      | Some kind =>
          if negb (Str.nonempty kind) then Unsupported kind_raw else
          let value := Str.strip p1 in
          if negb (Str.nonempty value) then Skipped else
          Yielded (mkRule kind (normalize_value kind value) (quanx_options parts))
      end
  | _ => Skipped
  end.

(** Lines 158-160 of the script. *)
Definition surge_options (parts : list string) : list string :=
  Str.strip <$> filter (λ opt, Str.nonempty (Str.strip opt)) (drop 2 parts).

Definition parse_surge_line (raw_line : string) : line_result :=
  let line := Str.strip raw_line in
  if is_blank_or_comment line then Skipped else
  let line := strip_inline_comment line in
  if negb (Str.nonempty line) then Skipped else
  let parts := fields line in
  match parts with
  | p0 :: p1 :: _ =>
      let kind := Str.upper p0 in
      let value := Str.strip p1 in
      if negb (Str.nonempty value) then Skipped else
      Yielded (mkRule kind (normalize_value kind value) (surge_options parts))
  | _ => Skipped
  end.

Definition yielded (res : line_result) : option Rule :=
  match res with Yielded r => Some r | _ => None end.

Definition warned (res : line_result) : option string :=
  match res with
  | Unsupported kind_raw =>
      Some ("[warn] Unsupported Quantumult X rule type: " +:+ kind_raw)
  | _ => None
  end.

(** The rules an adapter yields for a text, in order. *)
Definition parse_quanx (content : string) : list Rule :=
  omap (λ raw_line, yielded (parse_quanx_line raw_line)) (Str.splitlines content).

Definition parse_surge (content : string) : list Rule :=
  omap (λ raw_line, yielded (parse_surge_line raw_line)) (Str.splitlines content).

(** The warnings [parse_quanx] prints on stderr while it is consumed. *)
Definition parse_quanx_warnings (content : string) : list string :=
  omap (λ raw_line, warned (parse_quanx_line raw_line)) (Str.splitlines content).

(** ** Dynamic-label promoter *)

(** [enumerate(l)] as a list of pairs. *)
Definition enumerate {A} (l : list A) : list (nat * A) := imap pair l.

(** [LABEL_WITH_DIGITS.search(label) and len(label) >= 4]. *)
Definition is_dynamic (label : string) : bool :=
  Str.existsb Str.is_digit label && (4 <=? String.length label).

(** [[idx for idx, label in enumerate(labels[:-2]) if ...]]. *)
Definition dynamic_positions (labels : list string) : list nat :=
  fst <$> filter (λ p, is_dynamic p.2) (enumerate (take (length labels - 2) labels)).

Definition promote_dynamic_labels (rule : Rule) : option Rule :=
  if negb (bool_decide (rtype rule = "DOMAIN")) then None else
  let labels := Str.split "." (value rule) in
  if length labels <? 3 then None else
  match dynamic_positions labels with
  | [] => None
  | positions =>
      let new_labels := foldl (λ new_labels idx, <[idx := "*"]> new_labels) labels positions in
      Some (mkRule "DOMAIN-WILDCARD" (Str.join "." new_labels) (options rule))
  end.

(** ** Suffix generalisation engine *)

(** [suffix_map]: a dict from (suffix, prefix_count) to a set of indexes.
    The order of its items matters to the stable sort below, so the dict is
    kept as the list of its items in insertion order. *)
Abbreviation suffix_key := (list string * nat)%type.

(** [suffix_map[key].add(idx)] on the defaultdict. *)
Fixpoint add_index (key : suffix_key) (idx : nat)
    (suffix_map : list (suffix_key * gset nat)) : list (suffix_key * gset nat) :=
  match suffix_map with
  | [] => [(key, {[ idx ]})]
  | (key', indexes) :: rest =>
      if decide (key = key') then (key', {[ idx ]} ∪ indexes) :: rest
      else (key', indexes) :: add_index key idx rest
  end.

(** The body of the loop over [domain_indexes], for a rule found at [idx]. *)
Definition index_rule (idx : nat) (rule : Rule)
    (suffix_map : list (suffix_key * gset nat)) : list (suffix_key * gset nat) :=
  let labels := Str.split "." (value rule) in
  if length labels <? 3 then suffix_map else
  let max_suffix_len := (length labels - 1) `min` 5 in
  foldl (λ suffix_map suffix_len,
           let suffix := drop (length labels - suffix_len) labels in
           let prefix_count := length labels - suffix_len in
           if prefix_count <? 1 then suffix_map
           else add_index (suffix, prefix_count) idx suffix_map)
        suffix_map (seq 2 (max_suffix_len + 1 - 2)).

Definition domain_indexes (remaining : list Rule) : list nat :=
  fst <$> filter (λ p, bool_decide (rtype p.2 = "DOMAIN")) (enumerate remaining).

Definition build_suffix_map (remaining : list Rule) : list (suffix_key * gset nat) :=
  foldl (λ suffix_map idx,
           match remaining !! idx with
           | Some rule => index_rule idx rule suffix_map
           | None => suffix_map
           end)
        [] (domain_indexes remaining).

(** [sorted(xs, key=...)]: a stable sort, written as the insertion sort
    that keeps equal keys in their original order. *)
Fixpoint insert_sorted {A} (le : A → A → bool) (x : A) (l : list A) : list A :=
  match l with
  | [] => [x]
  | y :: l' => if le x y then x :: l else y :: insert_sorted le x l'
  end.

Definition sorted {A} (le : A → A → bool) (l : list A) : list A :=
  foldr (insert_sorted le) [] l.

(** [candidate_key] and the order of the triples it returns. *)
Definition candidate_key (item : suffix_key * gset nat) : Z * Z * Z :=
  let '((suffix, prefix_count), indexes) := item in
  (- Z.of_nat (length suffix), Z.of_nat prefix_count, - Z.of_nat (size indexes))%Z.

Definition triple_le (a b : Z * Z * Z) : bool :=
  let '(a1, a2, a3) := a in
  let '(b1, b2, b3) := b in
  (a1 <? b1)%Z || ((a1 =? b1)%Z && ((a2 <? b2)%Z || ((a2 =? b2)%Z && (a3 <=? b3)%Z))).

Definition sorted_candidates (suffix_map : list (suffix_key * gset nat))
    : list (suffix_key * gset nat) :=
  sorted (λ a b, triple_le (candidate_key a) (candidate_key b)) suffix_map.

(** [re.escape] (Python 3.7 and later): a backslash before each of
    [()[]{}?*+-|^$\.&~#] and the blanks SPACE, TAB, LF, CR, VT, FF. *)
Definition re_special (c : ascii) : bool :=
  match c with
  | "(" | ")" | "[" | "]" | "{" | "}" | "?" | "*" | "+" | "-" | "|" | "^"
  | "$" | "\" | "." | "&" | "~" | "#" | " "
  | "009" | "010" | "013" | "011" | "012" => true
  | _ => false
  end%char.

Fixpoint re_escape (s : string) : string :=
  match s with
  | EmptyString => EmptyString
  | String c t =>
      if re_special c then String "\" (String c (re_escape t))
      else String c (re_escape t)
  end.

(** The rule a candidate stands for (lines 230-236). *)
Definition generalized_rule (suffix_str : string) (prefix_count : nat)
    (options : list string) : Rule :=
  if bool_decide (prefix_count = 1) then
    mkRule "DOMAIN-WILDCARD" ("*." +:+ suffix_str) options
  else
    let prefix_pattern := Str.join "\." (replicate prefix_count "[^.]+") in
    let escaped_suffix := re_escape suffix_str in
    mkRule "DOMAIN-REGEX" ("^" +:+ prefix_pattern +:+ "\." +:+ escaped_suffix +:+ "$") options.

(** The sets the greedy loop updates.  [generalized] is a Python set that
    is only iterated by the sort of the assembly; every rule enters it once
    (it is not in [existing_rules] when added), so it is kept as the list of
    its members, in the order they were added. *)
Record engine_state := mkState {
  removed : gset nat;
  generalized : list Rule;
  existing_rules : gset Rule
}.

(** One accepted candidate: its key, the active supporting indexes it
    consumes, the indexes already consumed before it, and its rule. *)
Record emission := mkEmission {
  em_suffix : list string;
  em_prefix_count : nat;
  em_active : gset nat;
  em_removed_before : gset nat;
  em_rule : Rule
}.

Definition GENERIC_SUFFIXES : gset string := {[ "com"; "net"; "org"; "cn" ]}.

(** One pass of the loop of lines 219-241: the new state, and the
    emission when the candidate is accepted. *)
Definition engine_step (remaining : list Rule) (st : engine_state)
    (item : suffix_key * gset nat) : engine_state * option emission :=
  let '((suffix, prefix_count), indexes) := item in
  let active_indexes := filter (λ idx, idx ∉ removed st) indexes in
  if size active_indexes <? 2 then (st, None) else
  let options_set : gset (list string) :=
    list_to_set (omap (λ idx, options <$> remaining !! idx) (elements active_indexes)) in
  match elements options_set with
  | [options] =>
      let suffix_str := Str.join "." suffix in
      if (length suffix <? 2) || bool_decide (suffix_str ∈ GENERIC_SUFFIXES)
      then (st, None) else
      let new_rule := generalized_rule suffix_str prefix_count options in
      if bool_decide (new_rule ∈ existing_rules st) then (st, None) else
      (mkState (removed st ∪ active_indexes)
               (generalized st ++ [new_rule])
               ({[ new_rule ]} ∪ existing_rules st),
       Some (mkEmission suffix prefix_count active_indexes (removed st) new_rule))
  | _ => (st, None)
  end.

Fixpoint engine_loop (remaining : list Rule) (st : engine_state)
    (items : list (suffix_key * gset nat)) : engine_state * list emission :=
  match items with
  | [] => (st, [])
  | item :: items' =>
      let '(st', em) := engine_step remaining st item in
      let '(st'', ems) := engine_loop remaining st' items' in
      (st'', option_list em ++ ems)
  end.

(** ** simplify_rules *)

(** The first loop: the promoted rules and the indexes they came from. *)
Definition promote_pass (rules : list Rule) : list Rule * gset nat :=
  foldl (λ '(promoted, consumed_indexes) '(idx, rule),
           match promote_dynamic_labels rule with
           | Some promoted_rule => (promoted ++ [promoted_rule], {[ idx ]} ∪ consumed_indexes)
           | None => (promoted, consumed_indexes)
           end)
        ([], ∅) (enumerate rules).

(** [[rule for idx, rule in enumerate(rules) if idx not in skip]]. *)
Definition without_indexes (skip : gset nat) (rules : list Rule) : list Rule :=
  snd <$> filter (λ p, p.1 ∉ skip) (enumerate rules).

Definition remaining_rules (rules : list Rule) : list Rule :=
  without_indexes (promote_pass rules).2 rules.

Definition run_engine (remaining : list Rule) : engine_state * list emission :=
  engine_loop remaining (mkState ∅ [] (list_to_set remaining))
    (sorted_candidates (build_suffix_map remaining)).

(** The key of the sort of [generalized], and its order. *)
Definition rule_le (a b : Rule) : bool :=
  (type_order (rtype a) <? type_order (rtype b))%Z
  || ((type_order (rtype a) =? type_order (rtype b))%Z && String.leb (value a) (value b)).

(** The last loop: first occurrences only, in order. *)
Fixpoint unique_from (seen : gset Rule) (rules : list Rule) : list Rule :=
  match rules with
  | [] => []
  | rule :: rest =>
      if bool_decide (rule ∈ seen) then unique_from seen rest
      else rule :: unique_from ({[ rule ]} ∪ seen) rest
  end.

Definition simplify_rules (rules : list Rule) : list Rule :=
  let promoted := (promote_pass rules).1 in
  let remaining := remaining_rules rules in
  let st := (run_engine remaining).1 in
  let simplified :=
    without_indexes (removed st) remaining ++ sorted rule_le (generalized st) ++ promoted in
  unique_from ∅ simplified.

(** The candidates the suffix engine accepts on a call of
    [simplify_rules], in the order it accepts them. *)
Definition emissions (rules : list Rule) : list emission :=
  (run_engine (remaining_rules rules)).2.

(** ** Sorter *)

(** [sort_key] of [sort_rules] and the order of the triples it returns. *)
Definition sort_key (item : string) : Z * string * string :=
  let '(rule_type, remainder) := Str.partition "," item in
  (type_order rule_type, rule_type, remainder).

Definition sort_key_le (a b : Z * string * string) : bool :=
  let '(a1, a2, a3) := a in
  let '(b1, b2, b3) := b in
  (a1 <? b1)%Z
  || ((a1 =? b1)%Z && (String.ltb a2 b2 || (String.eqb a2 b2 && String.leb a3 b3))).

Definition sort_rules (lines : list string) : list string :=
  sorted (λ a b, sort_key_le (sort_key a) (sort_key b)) lines.

(** ** main, with its effects *)

(** What the outside answers to [urlopen(url, timeout=30)] followed by
    [read] and [decode]: the text; a [URLError] (or a subclass such as
    [HTTPError]), given by [str(exc)], which [fetch_text] handles; or an
    exception of another class, given by the last line of its traceback,
    which passes the handler of [fetch_text]: a [TimeoutError] while the
    response is read, [http.client.IncompleteRead],
    [http.client.RemoteDisconnected]. *)
Inductive fetch_outcome :=
  | Response (text : string)
  | RaisesURLError (exc : string)
  | RaisesOther (exc : string).

(** What the file system answers to [mkdir] and to [write_text]: the call
    returns, or raises an [OSError], given by the last line of its
    traceback. *)
Inductive fs_outcome :=
  | Done
  | RaisesOSError (exc : string).

(** The outside of a run.  Standard error is taken to accept what is
    printed on it. *)
Record world := mkWorld {
  urlopen : string → fetch_outcome;
  utcnow : string;       (* datetime.utcnow().isoformat(timespec='seconds') *)
  repo_root : string;    (* Path(__file__).resolve().parent.parent *)
  mkdir : string → fs_outcome;               (* path.mkdir(parents=True, exist_ok=True) *)
  write_text : string → string → fs_outcome  (* path.write_text(text, encoding="utf-8") *)
}.

(** What a run asks of the outside, in order.  [Fetch], [Mkdir] and
    [WriteText] record the call, whether it returns or raises; [Stderr] is
    a line printed on stderr, by the script or for its [SystemExit];
    [Traceback] is the interpreter's report of an uncaught exception,
    given by its last line.  Warnings of the interpreter itself (the
    deprecation notice of [utcnow] from Python 3.12 on) are no events. *)
Inductive event :=
  | Fetch (url : string)
  | Stderr (text : string)
  | Mkdir (path : string)
  | WriteText (path content : string)
  | Traceback (exc : string).

Global Instance event_eq_dec : EqDecision event.
Proof. solve_decision. Defined.

(** A computation returns, raises [SystemExit(message)], or raises an
    exception that nothing in the script catches; the events so far are
    kept in all cases. *)
Inductive outcome (A : Type) :=
  | Return (a : A)
  | SystemExit (message : string)
  | Uncaught (exc : string).
Arguments Return {A} a.
Arguments SystemExit {A} message.
Arguments Uncaught {A} exc.

Definition io (A : Type) : Type := list event → outcome A * list event.

Global Instance io_ret : MRet io := λ A a log, (Return a, log).

Global Instance io_bind : MBind io := λ A B k m log,
  match m log with
  | (Return a, log') => k a log'
  | (SystemExit message, log') => (SystemExit message, log')
  | (Uncaught exc, log') => (Uncaught exc, log')
  end.

Definition io_raise {A} (message : string) : io A := λ log, (SystemExit message, log).

Definition io_uncaught {A} (exc : string) : io A := λ log, (Uncaught exc, log).

Definition io_emit (evs : list event) : io unit := λ log, (Return (), log ++ evs).

Definition fetch_text (w : world) (url : string) : io string :=
  io_emit [Fetch url] ;;
  match urlopen w url with
  | Response text => mret text
  | RaisesURLError exc => io_raise ("Failed to download " +:+ url +:+ ": " +:+ exc)
  | RaisesOther exc => io_uncaught exc
  end.

(** The inner loop of [main] over the rules of one source. *)
Definition collect (rules : list Rule) (acc : list Rule * gset Rule) : list Rule * gset Rule :=
  foldl (λ '(collected, seen) rule,
           if bool_decide (rule ∈ seen) then (collected, seen)
           else (collected ++ [rule], {[ rule ]} ∪ seen))
        acc rules.

(** The outer loop of [main] over [SOURCES]. *)
Fixpoint fetch_all (w : world) (sources : list Source)
    (acc : list Rule * gset Rule) : io (list Rule * gset Rule) :=
  match sources with
  | [] => mret acc
  | source :: rest =>
      text ← fetch_text w (url source) ;
      if bool_decide (kind source = "quanx") then
        io_emit (Stderr <$> parse_quanx_warnings text) ;;
        fetch_all w rest (collect (parse_quanx text) acc)
      else
        fetch_all w rest (collect (parse_surge text) acc)
  end.

Definition TARGET_DIR (w : world) : string := repo_root w +:+ "/ruleset".
Definition TARGET_PATH (w : world) : string := TARGET_DIR w +:+ "/reject.list".

Definition header_lines (w : world) : list string :=
  [ "# DO NOT EDIT MANUALLY";
    "# Generated on " +:+ utcnow w +:+ "Z";
    "# Sources:" ]
  ++ ((λ source, "# - " +:+ description source +:+ ": " +:+ url source) <$> SOURCES)
  ++ [ EmptyString ].

Definition NL : string := String "010"%char EmptyString.
Definition CR : string := String "013"%char EmptyString.

(** A call to the file system; [main] makes its two outside any [try]. *)
Definition fs_call (ev : event) (answer : fs_outcome) : io unit :=
  io_emit [ev] ;;
  match answer with
  | Done => mret ()
  | RaisesOSError exc => io_uncaught exc
  end.

Definition main (w : world) : io unit :=
  acc ← fetch_all w SOURCES ([], ∅) ;
  let simplified := simplify_rules acc.1 in
  let lines := sort_rules (to_line <$> simplified) in
  let text := Str.join NL (header_lines w ++ lines) +:+ NL in
  fs_call (Mkdir (TARGET_DIR w)) (mkdir w (TARGET_DIR w)) ;;
  fs_call (WriteText (TARGET_PATH w) text) (write_text w (TARGET_PATH w) text).

(** A run of the script: the exit status of the process and what it did.
    An uncaught [SystemExit(message)] prints the message on stderr and
    ends the process with status 1; any other uncaught exception ends it
    with status 1 after the interpreter's traceback. *)
Definition run (w : world) : nat * list event :=
  match main w [] with
  | (Return _, log) => (0, log)
  | (SystemExit message, log) => (1, log ++ [Stderr message])
  | (Uncaught exc, log) => (1, log ++ [Traceback exc])
  end.

(** * Vocabulary of the properties

    The notions the statements below are written with: the specification's
    wording of the promoter, what the greedy loop guarantees of a candidate
    it accepts, the vocabulary of a serialised field, the observations of a
    run, and the two shapes of a generalised value. *)

(** The rules of the specification's examples. *)
Module Examples.

Definition domain (v : string) : Rule := mkRule "DOMAIN" v [].

Definition wildcard_ads : Rule := mkRule "DOMAIN-WILDCARD" "*.ads.example.com" [].
Definition wildcard_track : Rule := mkRule "DOMAIN-WILDCARD" "*.track.example.com" [].
Definition regex_tracker : Rule :=
  mkRule "DOMAIN-REGEX" "^[^.]+\.[^.]+\.tracker\.net$" [].

End Examples.

(** The contract in the words of the specification.  A label is flagged
    when it is not one of the last two, contains a digit and has at least
    four characters. *)
Definition flagged (labels : list string) (i : nat) (label : string) : bool :=
  (i + 2 <? length labels)
  && Str.existsb Str.is_digit label && (4 <=? String.length label).

Definition promotable (rule : Rule) : Prop :=
  let labels := Str.split "." (value rule) in
  rtype rule = "DOMAIN"
  ∧ 3 ≤ length labels
  ∧ ∃ i label, labels !! i = Some label ∧ flagged labels i label = true.

(** The value with every flagged label replaced by a star. *)
Definition star_flagged (v : string) : string :=
  let labels := Str.split "." v in
  Str.join "." (imap (λ i label, if flagged labels i label then "*" else label) labels).

(** What holds of a candidate when the loop accepts it, in terms of the
    candidates [items] the loop ran over. *)
Definition accepted (remaining : list Rule) (items : list (suffix_key * gset nat))
    (em : emission) : Prop :=
  ∃ indexes opts,
    (((em_suffix em, em_prefix_count em), indexes) ∈ items)
    ∧ em_active em = filter (λ idx, idx ∉ em_removed_before em) indexes
    ∧ 2 ≤ size (em_active em)
    ∧ (∀ idx rule, idx ∈ em_active em → remaining !! idx = Some rule → options rule = opts)
    ∧ 2 ≤ length (em_suffix em)
    ∧ (Str.join "." (em_suffix em) ∉ GENERIC_SUFFIXES)
    ∧ em_rule em
      = generalized_rule (Str.join "." (em_suffix em)) (em_prefix_count em) opts.

(** A text that does not begin with a blank. *)
Definition no_leading_space (s : string) : Prop :=
  match s with
  | EmptyString => True
  | String c _ => Str.is_space c = false
  end.

(** [parts] as [parse_quanx] computes them from a raw line. *)
Definition quanx_parts (raw_line : string) : list string :=
  fields (strip_inline_comment (Str.strip raw_line)).

(** The vocabulary of a serialised field: visible ASCII characters other
    than the comma, at least one. *)
Definition visible (c : ascii) : bool :=
  let n := nat_of_ascii c in (33 <=? n) && (n <=? 126).

Definition token_char (c : ascii) : bool :=
  visible c && negb (bool_decide (c = ","%char)).

Definition token (s : string) : Prop :=
  Str.nonempty s ∧ Str.forallb token_char s.

(** A value the adapters leave as it is: lower-case under a domain-like
    type, anchored under DOMAIN-REGEX. *)
Definition anchored (v : string) : Prop :=
  Str.startswith "^" v = true ∧ Str.endswith_char "$" v = true.

Definition normal_value (kind v : string) : Prop :=
  (kind ∈ DOMAIN_LIKE_TYPES → Str.lower v = v)
  ∧ (kind = "DOMAIN-REGEX" → anchored v).

(** The vocabulary of the Surge-style adapter: an upper-case type that
    does not open a comment, a normal value, and type, value and options
    that are tokens. *)
Record surge_vocabulary (r : Rule) : Prop := {
  sv_type : token (rtype r);
  sv_upper : Str.upper (rtype r) = rtype r;
  sv_not_comment : is_blank_or_comment (rtype r) = false;
  sv_value : token (value r);
  sv_normal : normal_value (rtype r) (value r);
  sv_options : Forall token (options r)
}.

(** The URLs a run fetched and the calls to [write_text] it made, in
    order. *)
Definition fetched (log : list event) : list string :=
  omap (λ ev, match ev with Fetch u => Some u | _ => None end) log.

Definition written (log : list event) : list (string * string) :=
  omap (λ ev, match ev with WriteText p c => Some (p, c) | _ => None end) log.

Definition failure_message (source : Source) (exc : string) : string :=
  "Failed to download " +:+ url source +:+ ": " +:+ exc.

(** A run in which the second source cannot be reached; one in which the
    second source is reached and the read of its response times out; and
    one in which all three answer.  The file system accepts every call in
    the three of them. *)
Definition failing_world : world :=
  mkWorld
    (λ u, if bool_decide (Some u = url <$> SOURCES !! 1)
          then RaisesURLError "<urlopen error timed out>"
          else Response "HOST,x.ads.example.com,reject")
    "2026-01-01T00:00:00" "/repo" (λ _, Done) (λ _ _, Done).

Definition timeout_world : world :=
  mkWorld
    (λ u, if bool_decide (Some u = url <$> SOURCES !! 1)
          then RaisesOther "TimeoutError: The read operation timed out"
          else Response "HOST,x.ads.example.com,reject")
    "2026-01-01T00:00:00" "/repo" (λ _, Done) (λ _ _, Done).

Definition answering_world : world :=
  mkWorld
    (λ u, if bool_decide (Some u = url <$> SOURCES !! 2)
          then Response "DOMAIN,y.ads.example.com"
          else Response "HOST,x.ads.example.com,reject")
    "2026-01-01T00:00:00" "/repo" (λ _, Done) (λ _ _, Done).

Definition dot_free (label : string) : Prop :=
  Str.forallb (λ c, negb (bool_decide (c = "."%char))) label.


Definition regex_shape (n : nat) (suffix_str v : string) : Prop :=
  ∃ labels,
    length labels = n
    ∧ Forall (λ label, dot_free label ∧ Str.nonempty label) labels
    ∧ v = Str.join "." labels +:+ "." +:+ suffix_str.

(** What the indexing loop records: an index stands under a key only if
    the rule there is a DOMAIN rule whose labels end in the key's suffix,
    after as many labels as the key's prefix count. *)
Definition indexed_under (remaining : list Rule) (key : suffix_key) (idx : nat) : Prop :=
  ∃ rule,
    remaining !! idx = Some rule
    ∧ rtype rule = "DOMAIN"
    ∧ length (Str.split "." (value rule)) = key.2 + length key.1
    ∧ 1 ≤ key.2
    ∧ drop key.2 (Str.split "." (value rule)) = key.1.

Definition suffix_map_ok (remaining : list Rule)
    (suffix_map : list (suffix_key * gset nat)) : Prop :=
  ∀ key indexes idx,
    (key, indexes) ∈ suffix_map → idx ∈ indexes → indexed_under remaining key idx.

(** The bounds every key of the suffix map keeps. *)
Definition keys_bounded (suffix_map : list (suffix_key * gset nat)) : Prop :=
  ∀ key indexes,
    (key, indexes) ∈ suffix_map →
    2 ≤ length key.1 ≤ 5 ∧ 1 ≤ key.2 ∧ indexes ≠ ∅.

(** A field without a comma, and a rule as the adapters leave it: a value
    that is not empty and is normal for the type, options that are not
    empty and are stripped, and no comma in type, value or options. *)
Definition comma_free (s : string) : Prop :=
  Str.forallb (λ c, negb (bool_decide (c = ","%char))) s.

Record normalized (r : Rule) : Prop := {
  nz_value : Str.nonempty (value r);
  nz_normal : normal_value (rtype r) (value r);
  nz_options : Forall (λ opt, Str.nonempty opt ∧ Str.strip opt = opt) (options r);
  nz_commas : Forall comma_free (rtype r :: value r :: options r)
}.

(** The rules a source contributes to a run, the rules of all sources
    in order, and the text a run writes when every source answers. *)
Definition source_rules (w : world) (source : Source) : list Rule :=
  match urlopen w (url source) with
  | Response text =>
      if bool_decide (kind source = "quanx") then parse_quanx text else parse_surge text
  | RaisesURLError _ | RaisesOther _ => []
  end.

Definition all_rules (w : world) (sources : list Source) : list Rule :=
  mjoin (source_rules w <$> sources).

Definition output_text (w : world) : string :=
  Str.join NL
    (header_lines w
     ++ sort_rules (to_line <$> simplify_rules (unique_from ∅ (all_rules w SOURCES))))
  +:+ NL.

Definition answers (w : world) (source : Source) : Prop :=
  ∃ text, urlopen w (url source) = Response text.

(** The file system lets the run make its directory, and lets it write
    its file. *)
Definition mkdir_returns (w : world) : Prop :=
  mkdir w (TARGET_DIR w) = Done.

Definition write_returns (w : world) : Prop :=
  write_text w (TARGET_PATH w) (output_text w) = Done.

(** A run in which every source answers and the target file cannot be
    opened for writing. *)
Definition read_only_world : world :=
  mkWorld
    (λ _, Response "HOST,x.ads.example.com,reject")
    "2026-01-01T00:00:00" "/repo" (λ _, Done)
    (λ _ _, RaisesOSError "PermissionError: [Errno 13] Permission denied: '/repo/ruleset/reject.list'").

(** The priority of the greedy loop between two keys: a longer suffix
    first, and among suffixes of one length the smaller prefix count. *)
Definition ranked_before (key1 key2 : suffix_key) : Prop :=
  length key2.1 < length key1.1
  ∨ (length key1.1 = length key2.1 ∧ key1.2 ≤ key2.2).

Definition em_key (em : emission) : suffix_key := (em_suffix em, em_prefix_count em).

(** A text without a line feed, as the lines [splitlines] returns, and a
    text of blanks only. *)
Definition lf_free (s : string) : Prop :=
  Str.forallb (λ c, negb (bool_decide (c = "010"%char))) s.

Definition blank (s : string) : bool := Str.forallb Str.is_space s.

(** A list with two groups the suffix engine generalises and a rule it
    leaves alone, and the two candidates it accepts on it. *)
Module Mixed.

Definition cidr : Rule := mkRule "IP-CIDR" "10.0.0.0/8" ["no-resolve"].

Definition rules : list Rule :=
  [ Examples.domain "x.ads.example.com"; Examples.domain "y.ads.example.com";
    Examples.domain "p.q.tracker.net"; Examples.domain "r.s.tracker.net"; cidr ].

Definition em_ads : emission :=
  mkEmission ["ads"; "example"; "com"] 1 {[0; 1]} ∅ Examples.wildcard_ads.

Definition em_tracker : emission :=
  mkEmission ["tracker"; "net"] 2 {[2; 3]} {[0; 1]} Examples.regex_tracker.

End Mixed.

(** * Properties *)

(** ** The string model on small inputs *)

Module StrExamples.

Example splitlines_crlf :
  Str.splitlines ("a" +:+ CR +:+ NL +:+ "b" +:+ NL) = ["a"; "b"].
Proof. reflexivity. Qed.

Example splitlines_empty : Str.splitlines EmptyString = [].
Proof. reflexivity. Qed.

Example splitlines_blank_line :
  Str.splitlines ("a" +:+ NL +:+ NL +:+ "b") = ["a"; EmptyString; "b"].
Proof. reflexivity. Qed.

Example split_keeps_empty_fields :
  Str.split "," "a,,b," = ["a"; EmptyString; "b"; EmptyString].
Proof. reflexivity. Qed.

Example strip_both_ends : Str.strip "  a b  " = "a b".
Proof. reflexivity. Qed.

Example inline_comment_cut : strip_inline_comment "x  # y # z" = "x".
Proof. reflexivity. Qed.

Example inline_comment_needs_blank : strip_inline_comment "a#b" = "a#b".
Proof. reflexivity. Qed.

Example inline_comment_slashes : strip_inline_comment "a /b //c" = "a /b".
Proof. reflexivity. Qed.

Example inline_comment_second_line :
  sub_inline_comment ("a #b" +:+ NL +:+ "c #d") = "a #b" +:+ NL +:+ "c".
Proof. reflexivity. Qed.

Example boundary_needs_two_characters :
  regex_has_boundary "^" = false ∧ regex_has_boundary "^$" = true
  ∧ regex_has_boundary "^a$b$" = true.
Proof. done. Qed.

Example normalize_adds_anchors :
  normalize_regex " abc\.com " = "^abc\.com$" ∧ normalize_regex "^abc" = "^abc$".
Proof. done. Qed.

Example escape_dots_and_dashes : re_escape "ad-x.net" = "ad\-x\.net".
Proof. reflexivity. Qed.

Example surge_lines :
  parse_surge ("DOMAIN-SUFFIX,Example.com,extra  # c" +:+ NL +:+ "# comment" +:+ NL
               +:+ "domain-regex,abc\.com$" +:+ NL +:+ "DOMAIN,foo.bar // x")
  = [ mkRule "DOMAIN-SUFFIX" "example.com" ["extra"];
      mkRule "DOMAIN-REGEX" "^abc\.com$" [];
      mkRule "DOMAIN" "foo.bar" [] ].
Proof. reflexivity. Qed.

Example quanx_lines :
  parse_quanx ("HOST-SUFFIX,Example.com,reject" +:+ NL +:+ "USER-AGENT,foo,reject" +:+ NL
               +:+ "ip6-cidr, 2001:db8::/32, reject, no-resolve")
  = [ mkRule "DOMAIN-SUFFIX" "example.com" [];
      mkRule "IP-CIDR6" "2001:db8::/32" ["no-resolve"] ]
  ∧ parse_quanx_warnings "USER-AGENT,foo,reject"
    = ["[warn] Unsupported Quantumult X rule type: USER-AGENT"].
Proof. done. Qed.

End StrExamples.

(** ** Strings *)

Section StrFacts.

Lemma str_app_cons c s t : String c s +:+ t = String c (s +:+ t).
Proof. reflexivity. Qed.

Lemma str_app_nil_l s : EmptyString +:+ s = s.
Proof. reflexivity. Qed.

Lemma str_app_nil_r s : s +:+ EmptyString = s.
Proof. induction s as [|c s IH]; [done|]. by rewrite str_app_cons, IH. Qed.


Lemma endswith_char_cons c a b s :
  Str.endswith_char c (String a (String b s)) = Str.endswith_char c (String b s).
Proof. reflexivity. Qed.

Lemma endswith_char_snoc c s : Str.endswith_char c (s +:+ String c EmptyString) = true.
Proof.
  induction s as [|a s IH]; [by apply bool_decide_eq_true|].
  rewrite str_app_cons. destruct s as [|b s]; [by apply bool_decide_eq_true|].
  by rewrite str_app_cons, endswith_char_cons, <-str_app_cons.
Qed.

Lemma endswith_char_inj c d s :
  Str.endswith_char c s = true → Str.endswith_char d s = true → c = d.
Proof.
  induction s as [|a s IH]; [done|]. destruct s as [|b s].
  - simpl. intros ->%bool_decide_eq_true ->%bool_decide_eq_true. done.
  - rewrite !endswith_char_cons. exact IH.
Qed.

Lemma startswith_app_same c s t :
  Str.startswith (String c EmptyString) s = true →
  Str.startswith (String c EmptyString) (s +:+ t) = true.
Proof. destruct s; [done|]. by rewrite str_app_cons. Qed.

(** [rstrip] leaves no blank at the end, and leaves alone a text that
    has none there. *)
Lemma rstrip_no_trailing_space c s :
  Str.is_space c = true → Str.endswith_char c (Str.rstrip s) = false.
Proof.
  intros Hc. induction s as [|a s IH]; [done|]. simpl.
  destruct (Str.rstrip s) as [|b r] eqn:Hr.
  - destruct (Str.is_space a) eqn:Ha; [done|]. simpl.
    apply bool_decide_eq_false. intros ->. congruence.
  - by rewrite endswith_char_cons.
Qed.

Lemma rstrip_id c s :
  Str.endswith_char c s = true → Str.is_space c = false → Str.rstrip s = s.
Proof.
  intros Hend Hc. induction s as [|a s IH]; [done|]. simpl.
  destruct s as [|b s].
  - simpl in *. apply bool_decide_eq_true in Hend as ->. by rewrite Hc.
  - rewrite endswith_char_cons in Hend. by rewrite (IH Hend).
Qed.

Lemma lstrip_id c s : Str.is_space c = false → Str.lstrip (String c s) = String c s.
Proof. intros Hc. simpl. by rewrite Hc. Qed.

Lemma strip_no_trailing_space c s :
  Str.is_space c = true → Str.endswith_char c (Str.strip s) = false.
Proof. apply rstrip_no_trailing_space. Qed.

Lemma strip_id c d s :
  Str.is_space c = false → Str.is_space d = false →
  Str.endswith_char d (String c s) = true → Str.strip (String c s) = String c s.
Proof.
  intros Hc Hd Hend. unfold Str.strip. rewrite (lstrip_id _ _ Hc).
  by apply (rstrip_id d).
Qed.

End StrFacts.

(** ** normalize_regex *)

Lemma dot_star_dollar_end_last t :
  dot_star_dollar_end t = true →
  Str.endswith_char "$" t = true ∨ Str.endswith_char "010" t = true.
Proof.
  induction t as [|c t IH]; [done|]. simpl.
  intros [H|H]%orb_true_iff.
  - apply andb_true_iff in H as [->%bool_decide_eq_true H].
    destruct t as [|c' [|c'' t]]; [by left| |by destruct c' as [[] [] [] [] [] [] [] []]].
    right. by destruct c' as [[] [] [] [] [] [] [] []].
  - apply andb_true_iff in H as [_ H]. specialize (IH H).
    destruct t as [|c' t]; [done|]. exact IH.
Qed.

Lemma normalize_regex_anchored v :
  Str.startswith "^" (normalize_regex v) = true
  ∧ Str.endswith_char "$" (normalize_regex v) = true.
Proof.
  unfold normalize_regex. set (s := Str.strip v).
  assert (Hnl : Str.endswith_char "010" s = false)
    by by apply strip_no_trailing_space.
  destruct (regex_has_boundary s) eqn:Hb; cbn [negb].
  - unfold regex_has_boundary in Hb.
    destruct s as [|c t]; [done|].
    assert (c = "^"%char) as ->.
    { destruct c as [[] [] [] [] [] [] [] []]; done. }
    split; [done|].
    destruct (dot_star_dollar_end_last _ Hb) as [H|H].
    + destruct t; [done|]. by rewrite endswith_char_cons.
    + destruct t; [done|]. rewrite endswith_char_cons in Hnl. congruence.
  - destruct (Str.startswith "^" s) eqn:Hs; cbn [negb].
    + destruct (Str.endswith_char "$" s) eqn:He; cbn [negb]; [done|].
      split; [by apply startswith_app_same|apply endswith_char_snoc].
    + destruct (Str.endswith_char "$" ("^" +:+ s)) eqn:He; cbn [negb]; [done|].
      split; [done|apply (endswith_char_snoc "$")].
Qed.

Lemma normalize_regex_fixed s :
  Str.startswith "^" s = true → Str.endswith_char "$" s = true →
  normalize_regex s = s.
Proof.
  intros Hs He. unfold normalize_regex.
  destruct s as [|c t]; [done|].
  assert (c = "^"%char) as ->.
  { simpl in Hs. apply andb_true_iff in Hs as [Hs _]. by apply bool_decide_eq_true in Hs. }
  rewrite (strip_id "^" "$") by done.
  destruct (regex_has_boundary _); cbn [negb]; [done|].
  rewrite Hs. cbn [negb]. by rewrite He.
Qed.

(** C10. [normalize_regex] always anchors its result, with [^] in front and
    [$] at the end, and is idempotent: normalising a normalised value
    changes nothing. *)
Theorem normalize_regex_idempotent_anchors (v : string) :
  Str.startswith "^" (normalize_regex v) = true
  ∧ Str.endswith_char "$" (normalize_regex v) = true
  ∧ normalize_regex (normalize_regex v) = normalize_regex v.
Proof.
  destruct (normalize_regex_anchored v) as [Hs He].
  split_and!; [done..|]. by apply normalize_regex_fixed.
Qed.

(** ** Worked examples of simplify_rules *)

Module ExampleRuns.

Lemma simplify_ads :
  simplify_rules [Examples.domain "x.ads.example.com"; Examples.domain "y.ads.example.com"]
  = [Examples.wildcard_ads].
Proof. vm_compute. reflexivity. Qed.

Lemma simplify_track :
  simplify_rules [Examples.domain "a1.track.example.com"; Examples.domain "b2.track.example.com"]
  = [Examples.wildcard_track].
Proof. vm_compute. reflexivity. Qed.

Lemma simplify_tracker :
  simplify_rules [Examples.domain "p.q.tracker.net"; Examples.domain "r.s.tracker.net"]
  = [Examples.regex_tracker].
Proof. vm_compute. reflexivity. Qed.

(** The promoter at work: both leading labels carry a digit and have
    four characters or more. *)
Lemma promote_two_labels :
  promote_dynamic_labels (Examples.domain "ab12.c3d4e.track.example.com")
  = Some (mkRule "DOMAIN-WILDCARD" "*.*.track.example.com" []).
Proof. reflexivity. Qed.

End ExampleRuns.

(** C2. On the two rules DOMAIN,x.ads.example.com and
    DOMAIN,y.ads.example.com, both without options, the output of
    [simplify_rules] contains DOMAIN-WILDCARD,*.ads.example.com without
    options and contains neither of the two original rules. *)
Theorem example_ads_wildcard :
  let r1 := mkRule "DOMAIN" "x.ads.example.com" [] in
  let r2 := mkRule "DOMAIN" "y.ads.example.com" [] in
  let out := simplify_rules [r1; r2] in
  (mkRule "DOMAIN-WILDCARD" "*.ads.example.com" [] ∈ out) ∧ (r1 ∉ out) ∧ (r2 ∉ out).
Proof.
  intros r1 r2 out.
  assert (out = [Examples.wildcard_ads]) as -> by apply ExampleRuns.simplify_ads.
  split_and!; [apply list_elem_of_singleton; done|..];
    intros H%list_elem_of_singleton; discriminate H.
Qed.

(** C6. On the two rules DOMAIN,p.q.tracker.net and DOMAIN,r.s.tracker.net,
    both without options, the output of [simplify_rules] contains
    DOMAIN-REGEX,^[^.]+\.[^.]+\.tracker\.net$ (two label groups, then the
    escaped suffix, anchored at both ends) and neither of the originals. *)
Theorem example_tracker_regex :
  let r1 := mkRule "DOMAIN" "p.q.tracker.net" [] in
  let r2 := mkRule "DOMAIN" "r.s.tracker.net" [] in
  let out := simplify_rules [r1; r2] in
  (mkRule "DOMAIN-REGEX"
     ("^" +:+ Str.join "\." (replicate 2 "[^.]+") +:+ "\." +:+ re_escape "tracker.net" +:+ "$")
     [] ∈ out)
  ∧ (mkRule "DOMAIN-REGEX" "^[^.]+\.[^.]+\.tracker\.net$" [] ∈ out)
  ∧ (r1 ∉ out) ∧ (r2 ∉ out).
Proof.
  intros r1 r2 out.
  assert (out = [Examples.regex_tracker]) as -> by apply ExampleRuns.simplify_tracker.
  split_and!; [apply list_elem_of_singleton; reflexivity..| |];
    intros H%list_elem_of_singleton; discriminate H.
Qed.

(** C4, as the specification states it, fails: the promoter does not
    promote DOMAIN,a1.track.example.com, whose only label with a digit has
    two characters. *)
Lemma example_track_not_promoted :
  ¬ (let r1 := mkRule "DOMAIN" "a1.track.example.com" [] in
     let r2 := mkRule "DOMAIN" "b2.track.example.com" [] in
     let w := mkRule "DOMAIN-WILDCARD" "*.track.example.com" [] in
     promote_dynamic_labels r1 = Some w
     ∧ promote_dynamic_labels r2 = Some w
     ∧ length (filter (λ r, r = w) (simplify_rules [r1; r2])) = 1).
Proof. intros [H _]. discriminate H. Qed.

(** C4, amended. Neither DOMAIN,a1.track.example.com nor
    DOMAIN,b2.track.example.com is promoted (the labels a1 and b2 are
    shorter than four characters); the suffix engine accepts one candidate,
    the suffix (track, example, com) with one prefix label, which consumes
    both rules and stands for DOMAIN-WILDCARD,*.track.example.com; the
    output of [simplify_rules] holds that rule exactly once, and nothing
    else. *)
Theorem example_track_generalized :
  let r1 := mkRule "DOMAIN" "a1.track.example.com" [] in
  let r2 := mkRule "DOMAIN" "b2.track.example.com" [] in
  let w := mkRule "DOMAIN-WILDCARD" "*.track.example.com" [] in
  promote_dynamic_labels r1 = None
  ∧ promote_dynamic_labels r2 = None
  ∧ emissions [r1; r2] = [mkEmission ["track"; "example"; "com"] 1 {[0; 1]} ∅ w]
  ∧ simplify_rules [r1; r2] = [w]
  ∧ length (filter (λ r, r = w) (simplify_rules [r1; r2])) = 1.
Proof.
  intros r1 r2 w. split_and!; [reflexivity..| | |].
  - vm_compute. reflexivity.
  - apply ExampleRuns.simplify_track.
  - vm_compute. reflexivity.
Qed.

(** ** The dynamic-label promoter *)

Lemma elem_of_enumerate {A} (l : list A) i x : (i, x) ∈ enumerate l ↔ l !! i = Some x.
Proof.
  unfold enumerate. rewrite elem_of_lookup_imap. split.
  - intros (j & y & [= -> ->] & H). done.
  - intros H. eauto.
Qed.

Lemma elem_of_dynamic_positions labels i :
  i ∈ dynamic_positions labels
  ↔ ∃ label, labels !! i = Some label ∧ flagged labels i label = true.
Proof.
  unfold dynamic_positions, flagged. rewrite list_elem_of_fmap. split.
  - intros ([j label] & -> & [Hd Hin]%list_elem_of_filter). cbn [fst snd] in *.
    apply elem_of_enumerate, lookup_take_Some in Hin as [Hl Hlt].
    exists label. split; [done|]. apply Is_true_true in Hd.
    unfold is_dynamic in Hd. apply andb_true_iff in Hd as [-> ->].
    rewrite !andb_true_r. apply Nat.ltb_lt. lia.
  - intros (label & Hl & H).
    apply andb_true_iff in H as [H H3]. apply andb_true_iff in H as [H1 H2].
    apply Nat.ltb_lt in H1.
    exists (i, label). split; [done|]. apply list_elem_of_filter. split.
    + apply Is_true_true. unfold is_dynamic. cbn [snd]. by rewrite H2, H3.
    + apply elem_of_enumerate, lookup_take_Some. split; [done|lia].
Qed.

Lemma length_foldl_insert {A} (x : A) (positions : list nat) (l : list A) :
  length (foldl (λ acc idx, <[idx := x]> acc) l positions) = length l.
Proof.
  revert l. induction positions as [|p ps IH]; intros l; [done|].
  simpl. by rewrite IH, length_insert.
Qed.

Lemma lookup_foldl_insert {A} (x : A) (positions : list nat) (l : list A) (i : nat) :
  foldl (λ acc idx, <[idx := x]> acc) l positions !! i
  = if decide (i ∈ positions) then (λ _, x) <$> l !! i else l !! i.
Proof.
  revert l. induction positions as [|p ps IH]; intros l; cbn [foldl].
  - case_decide as H; [by apply elem_of_nil in H|done].
  - rewrite IH. destruct (decide (i = p)) as [->|Hne].
    + assert (Hin : p ∈ p :: ps) by apply list_elem_of_here.
      destruct (decide (p < length l)) as [Hlt|Hge].
      * rewrite list_lookup_insert_eq by done.
        destruct (lookup_lt_is_Some_2 l p Hlt) as [y ->].
        by repeat case_decide.
      * rewrite list_insert_ge by lia. rewrite lookup_ge_None_2 by lia.
        by repeat case_decide.
    + rewrite list_lookup_insert_ne by done.
      destruct (decide (i ∈ ps)) as [Hin|Hnin].
      * rewrite decide_True by by apply list_elem_of_further. done.
      * rewrite decide_False; [done|]. by intros [?|?]%elem_of_cons.
Qed.

Lemma foldl_insert_star labels :
  foldl (λ new_labels idx, <[idx := "*"]> new_labels) labels (dynamic_positions labels)
  = imap (λ i label, if flagged labels i label then "*" else label) labels.
Proof.
  apply list_eq. intros i.
  rewrite lookup_foldl_insert, list_lookup_imap.
  destruct (labels !! i) as [label|] eqn:Hl; cbn [fmap option_fmap option_map].
  - case_decide as Hin.
    + apply elem_of_dynamic_positions in Hin as (label' & Hl' & Hf).
      rewrite Hl in Hl'. injection Hl' as <-. by rewrite Hf.
    + destruct (flagged labels i label) eqn:Hf; [|done].
      exfalso. apply Hin, elem_of_dynamic_positions. eauto.
  - by case_decide.
Qed.

(** C5. [promote_dynamic_labels] returns a rule exactly when its argument
    is a DOMAIN rule whose value has at least three labels, one of which,
    not among the last two, contains a digit and has four characters or
    more.  The rule returned is then the DOMAIN-WILDCARD rule whose value
    is the argument's with every such label replaced by a star and the
    other labels unchanged, with the argument's options; otherwise nothing
    is returned. *)
Theorem promote_dynamic_labels_contract (rule : Rule) :
  (promotable rule →
   promote_dynamic_labels rule
   = Some (mkRule "DOMAIN-WILDCARD" (star_flagged (value rule)) (options rule)))
  ∧ (¬ promotable rule → promote_dynamic_labels rule = None).
Proof.
  unfold promotable, promote_dynamic_labels, star_flagged.
  set (labels := Str.split "." (value rule)).
  split.
  - intros (Ht & Hlen & i & label & Hl & Hf).
    rewrite bool_decide_eq_true_2 by done. cbn [negb].
    destruct (length labels <? 3) eqn:Hlt; [apply Nat.ltb_lt in Hlt; lia|].
    assert (Hin : i ∈ dynamic_positions labels)
      by (apply elem_of_dynamic_positions; eauto).
    rewrite <-foldl_insert_star.
    destruct (dynamic_positions labels) as [|p ps] eqn:Hp; [by apply elem_of_nil in Hin|].
    done.
  - intros Hnot.
    destruct (bool_decide (rtype rule = "DOMAIN")) eqn:Ht; cbn [negb]; [|done].
    apply bool_decide_eq_true in Ht.
    destruct (length labels <? 3) eqn:Hlt; [done|]. apply Nat.ltb_ge in Hlt.
    destruct (dynamic_positions labels) as [|p ps] eqn:Hp; [done|].
    exfalso. apply Hnot. split_and!; [done..|].
    assert (Hin : p ∈ dynamic_positions labels) by (rewrite Hp; apply list_elem_of_here).
    apply elem_of_dynamic_positions in Hin as (label & ? & ?). eauto.
Qed.

(** The contract at work on DOMAIN,ab12.c3d4e.track.example.com, which is
    promoted, and on DOMAIN,a1.track.example.com, which is not. *)
Lemma promote_dynamic_labels_contract_witness :
  let r1 := mkRule "DOMAIN" "ab12.c3d4e.track.example.com" ["x"] in
  let r2 := mkRule "DOMAIN" "a1.track.example.com" [] in
  promotable r1
  ∧ promote_dynamic_labels r1
    = Some (mkRule "DOMAIN-WILDCARD" (star_flagged (value r1)) (options r1))
  ∧ star_flagged (value r1) = "*.*.track.example.com"
  ∧ ¬ promotable r2
  ∧ promote_dynamic_labels r2 = None.
Proof.
  intros r1 r2.
  assert (H1 : promotable r1).
  { split_and!; [reflexivity|simpl; lia|].
    exists 0, "ab12". split; reflexivity. }
  assert (H2 : ¬ promotable r2).
  { intros (_ & _ & i & label & Hl & Hf).
    destruct i as [|[|[|[|i]]]]; simpl in Hl; try discriminate Hl;
      injection Hl as <-; discriminate Hf. }
  split_and!; [exact H1| |reflexivity|exact H2|].
  - exact (proj1 (promote_dynamic_labels_contract r1) H1).
  - exact (proj2 (promote_dynamic_labels_contract r2) H2).
Defined.

(** ** The greedy loop of the suffix engine *)

Lemma engine_step_cases remaining st suffix prefix_count indexes :
  engine_step remaining st ((suffix, prefix_count), indexes) = (st, None)
  ∨ ∃ em,
      engine_step remaining st ((suffix, prefix_count), indexes)
      = (mkState (removed st ∪ em_active em)
                 (generalized st ++ [em_rule em])
                 ({[ em_rule em ]} ∪ existing_rules st),
         Some em)
      ∧ em_suffix em = suffix
      ∧ em_prefix_count em = prefix_count
      ∧ em_removed_before em = removed st
      ∧ (em_rule em ∉ existing_rules st)
      ∧ accepted remaining [((suffix, prefix_count), indexes)] em.
Proof.
  unfold engine_step.
  set (active := filter (λ idx, idx ∉ removed st) indexes).
  destruct (size active <? 2) eqn:Hsize; [by left|]. apply Nat.ltb_ge in Hsize.
  set (options_set := list_to_set _ : gset (list string)).
  destruct (elements options_set) as [|opts [|??]] eqn:Hopts; [by left| |by left].
  destruct (length suffix <? 2) eqn:Hlen; [by left|]. apply Nat.ltb_ge in Hlen.
  cbn [orb].
  destruct (bool_decide (Str.join "." suffix ∈ GENERIC_SUFFIXES)) eqn:Hgen; [by left|].
  apply bool_decide_eq_false in Hgen.
  destruct (bool_decide (_ ∈ existing_rules st)) eqn:Hex; [by left|].
  apply bool_decide_eq_false in Hex.
  right. eexists (mkEmission _ _ _ _ _). split; [reflexivity|]. cbn.
  split_and!; [done..|].
  exists indexes, opts. cbn. split_and!; [apply list_elem_of_here|try done..].
  intros idx rule Hidx Hrule.
  assert (Hin : options rule ∈ options_set).
  { apply elem_of_list_to_set, list_elem_of_omap. exists idx.
    split; [by apply elem_of_elements|]. by rewrite Hrule. }
  apply elem_of_elements in Hin. rewrite Hopts in Hin.
  by apply list_elem_of_singleton in Hin.
Qed.

Lemma accepted_weaken remaining items items' em :
  (∀ item, item ∈ items → item ∈ items') →
  accepted remaining items em → accepted remaining items' em.
Proof.
  intros Hsub (indexes & opts & Hin & H). exists indexes, opts. split; [auto|done].
Qed.

(** The loop adds to [removed] and [generalized] exactly what its
    emissions say, and each emission was accepted from a state whose
    [removed] holds the earlier ones. *)
Lemma engine_loop_emissions remaining items : ∀ st st' ems,
  engine_loop remaining st items = (st', ems) →
  generalized st' = generalized st ++ (em_rule <$> ems)
  ∧ removed st' = removed st ∪ ⋃ (em_active <$> ems)
  ∧ Forall (λ em, accepted remaining items em
                  ∧ removed st ⊆ em_removed_before em
                  ∧ em_removed_before em ⊆ removed st') ems.
Proof.
  induction items as [|[[suffix prefix_count] indexes] items IH]; intros st st' ems.
  - intros [= <- <-]. cbn. rewrite app_nil_r. split_and!; [done|set_solver|done].
  - cbn [engine_loop].
    destruct (engine_step_cases remaining st suffix prefix_count indexes)
      as [->|(em & -> & Hs & Hp & Hr & Hnew & Hacc)].
    + destruct (engine_loop remaining st items) as [st2 ems2] eqn:Hloop.
      intros [= <- <-]. destruct (IH _ _ _ Hloop) as (Hg & Hrem & Hall).
      cbn [option_list app]. split_and!; [done..|].
      eapply Forall_impl; [exact Hall|]. intros em' (Ha & ? & ?).
      split_and!; [|done..].
      eapply accepted_weaken; [|exact Ha]. intros; by apply list_elem_of_further.
    + destruct (engine_loop remaining _ items) as [st2 ems2] eqn:Hloop.
      intros [= <- <-]. destruct (IH _ _ _ Hloop) as (Hg & Hrem & Hall).
      cbn in Hg, Hrem. cbn [option_list app fmap list_fmap union_list foldr].
      split_and!.
      * rewrite Hg. by rewrite <-(assoc_L (++)).
      * rewrite Hrem. cbn. set_solver.
      * apply Forall_cons. split.
        { split_and!.
          - eapply accepted_weaken; [|exact Hacc].
            intros item ->%list_elem_of_singleton. apply list_elem_of_here.
          - by rewrite Hr.
          - rewrite Hr, Hrem. cbn. set_solver. }
        eapply Forall_impl; [exact Hall|]. intros em' (Ha & Hsub1 & Hsub2).
        cbn in Hsub1. split_and!; [|set_solver|done].
        eapply accepted_weaken; [|exact Ha]. intros; by apply list_elem_of_further.
Qed.

(** Each emission records, as the indexes consumed before it, the indexes
    the emissions before it consumed. *)
Lemma engine_loop_removed_before remaining items : ∀ st st' l1 em l2,
  engine_loop remaining st items = (st', l1 ++ em :: l2) →
  em_removed_before em = removed st ∪ ⋃ (em_active <$> l1).
Proof.
  induction items as [|[[suffix prefix_count] indexes] items IH]; intros st st' l1 em l2.
  - intros [= _ H]. by destruct l1.
  - cbn [engine_loop].
    destruct (engine_step_cases remaining st suffix prefix_count indexes)
      as [->|(em0 & -> & Hs & Hp & Hr & Hnew & Hacc)];
      destruct (engine_loop remaining _ items) as [st2 ems2] eqn:Hloop;
      intros [= <- Hems]; cbn [option_list app] in Hems.
    + subst ems2. by apply (IH _ _ _ _ _ Hloop).
    + destruct l1 as [|em1 l1]; cbn in Hems; injection Hems as -> ->.
      * rewrite Hr. cbn. set_solver.
      * rewrite (IH _ _ _ _ _ Hloop). cbn. set_solver.
Qed.

Lemma elem_of_insert_sorted {A} (le : A → A → bool) x y l :
  y ∈ insert_sorted le x l ↔ y = x ∨ y ∈ l.
Proof.
  induction l as [|z l IH]; cbn [insert_sorted].
  - rewrite list_elem_of_singleton, elem_of_nil. tauto.
  - destruct (le x z); rewrite !elem_of_cons; [done|]. rewrite IH. tauto.
Qed.

Lemma elem_of_sorted {A} (le : A → A → bool) y l : y ∈ sorted le l ↔ y ∈ l.
Proof.
  induction l as [|x l IH]; cbn [sorted foldr]; [done|].
  fold (sorted le l). by rewrite elem_of_insert_sorted, elem_of_cons, IH.
Qed.

Lemma emissions_accepted rules em :
  em ∈ emissions rules →
  accepted (remaining_rules rules) (build_suffix_map (remaining_rules rules)) em.
Proof.
  unfold emissions, run_engine. intros Hem.
  destruct (engine_loop _ _ _) as [st' ems] eqn:Hloop.
  destruct (engine_loop_emissions _ _ _ _ _ Hloop) as (_ & _ & Hall).
  rewrite Forall_forall in Hall. destruct (Hall em Hem) as (Hacc & _).
  eapply accepted_weaken; [|exact Hacc].
  intros item. unfold sorted_candidates. by rewrite elem_of_sorted.
Qed.

(** C7. Every generalized rule of a call of [simplify_rules] is the rule
    of an accepted candidate of the suffix engine, and every accepted
    candidate is backed, when it is accepted, by at least two active
    supporting indexes: the indexes recorded under its key that no
    candidate accepted before it has consumed. *)
Theorem minimum_support (rules : list Rule) :
  generalized (run_engine (remaining_rules rules)).1 = em_rule <$> emissions rules
  ∧ ∀ earlier em later,
      emissions rules = earlier ++ em :: later →
      ∃ indexes,
        (((em_suffix em, em_prefix_count em), indexes)
           ∈ build_suffix_map (remaining_rules rules))
        ∧ em_active em = filter (λ idx, idx ∉ ⋃ (em_active <$> earlier)) indexes
        ∧ 2 ≤ size (em_active em).
Proof.
  split.
  - unfold emissions, run_engine.
    destruct (engine_loop _ _ _) as [st' ems] eqn:Hloop.
    destruct (engine_loop_emissions _ _ _ _ _ Hloop) as (Hg & _). exact Hg.
  - intros earlier em later Hems.
    assert (Hem : em ∈ emissions rules).
    { rewrite Hems. apply elem_of_app. right. apply list_elem_of_here. }
    destruct (emissions_accepted _ _ Hem) as (indexes & opts & Hin & Hact & Hsize & _).
    exists indexes. split_and!; [done| |done].
    rewrite Hact. f_equal.
    unfold emissions, run_engine in Hems.
    destruct (engine_loop _ _ _) as [st' ems] eqn:Hloop. cbn in Hems. subst ems.
    rewrite (engine_loop_removed_before _ _ _ _ _ _ _ Hloop). cbn.
    assert (∅ ∪ ⋃ (em_active <$> earlier) = ⋃ (em_active <$> earlier)) as ->
      by apply (left_id_L ∅ (∪)).
    done.
Qed.

(** The invariant at work on the two rules of the second example: one
    candidate is accepted, backed by both indexes. *)
Lemma minimum_support_witness :
  let rules := [Examples.domain "x.ads.example.com"; Examples.domain "y.ads.example.com"] in
  let em := mkEmission ["ads"; "example"; "com"] 1 {[0; 1]} ∅ Examples.wildcard_ads in
  emissions rules = [] ++ em :: []
  ∧ ∃ indexes : gset nat,
      (((em_suffix em, em_prefix_count em), indexes)
         ∈ build_suffix_map (remaining_rules rules))
      ∧ em_active em = filter (λ idx, idx ∉ ⋃ (em_active <$> [])) indexes
      ∧ 2 ≤ size (em_active em).
Proof.
  intros rules em.
  assert (H : emissions rules = [] ++ em :: []) by (vm_compute; reflexivity).
  split; [exact H|]. exact (proj2 (minimum_support rules) [] em [] H).
Defined.

(** ** The adapters *)

Lemma lstrip_no_leading_space s : no_leading_space (Str.lstrip s).
Proof.
  induction s as [|c s IH]; [done|]. simpl.
  destruct (Str.is_space c) eqn:Hc; [done|]. exact Hc.
Qed.

Lemma rstrip_no_leading_space s : no_leading_space s → no_leading_space (Str.rstrip s).
Proof.
  destruct s as [|c s]; [done|]. cbn [no_leading_space Str.rstrip]. intros Hc.
  destruct (Str.rstrip s); [by rewrite Hc|done].
Qed.

Lemma lstrip_fixed s : no_leading_space s → Str.lstrip s = s.
Proof. destruct s as [|c s]; [done|]. intros Hc. by apply lstrip_id. Qed.

Lemma rstrip_cons c s :
  Str.rstrip (String c s)
  = match Str.rstrip s with
    | EmptyString => if Str.is_space c then EmptyString else String c EmptyString
    | r => String c r
    end.
Proof. reflexivity. Qed.

Lemma rstrip_idemp s : Str.rstrip (Str.rstrip s) = Str.rstrip s.
Proof.
  induction s as [|c s IH]; [done|]. rewrite rstrip_cons.
  destruct (Str.rstrip s) as [|b r] eqn:Hr.
  - destruct (Str.is_space c) eqn:Hc; [done|]. cbn. by rewrite Hc.
  - by rewrite rstrip_cons, IH.
Qed.

Lemma strip_idemp s : Str.strip (Str.strip s) = Str.strip s.
Proof.
  unfold Str.strip.
  rewrite (lstrip_fixed (Str.rstrip (Str.lstrip s)))
    by apply rstrip_no_leading_space, lstrip_no_leading_space.
  apply rstrip_idemp.
Qed.

Lemma fields_stripped line : Forall (λ part, Str.strip part = part) (fields line).
Proof.
  unfold fields. apply Forall_fmap, Forall_forall. intros part _. apply strip_idemp.
Qed.

(** On fields that are already stripped, the second filter and the second
    strip of lines 129-133 change nothing: what is left is the non-empty
    fields after the value, without the first of them. *)
Lemma quanx_options_stripped parts :
  Forall (λ part, Str.strip part = part) parts →
  quanx_options parts = tail (filter (λ item, Str.nonempty item) (drop 2 parts)).
Proof.
  intros Hparts. unfold quanx_options.
  assert (Hrem : Forall (λ item, Str.strip item = item ∧ Str.nonempty item)
                   (filter (λ item, Str.nonempty item) (drop 2 parts))).
  { apply Forall_forall. intros item [Hne Hin]%list_elem_of_filter. split; [|done].
    rewrite Forall_forall in Hparts. apply Hparts.
    by apply (subseteq_drop 2 parts). }
  destruct (filter _ (drop 2 parts)) as [|first remainder]; [done|].
  apply Forall_cons in Hrem as [_ Hrem]. cbn [tail].
  induction Hrem as [|item remainder [Hs Hne] _ IH]; [done|].
  rewrite filter_cons_True by by rewrite Hs.
  cbn [fmap list_fmap]. rewrite Hs. f_equal. exact IH.
Qed.

Lemma parse_quanx_line_options raw_line r :
  parse_quanx_line raw_line = Yielded r →
  options r = quanx_options (quanx_parts raw_line).
Proof.
  unfold parse_quanx_line, quanx_parts.
  destruct (is_blank_or_comment _); [done|].
  destruct (negb (Str.nonempty (strip_inline_comment _))); [done|].
  destruct (fields _) as [|p0 [|p1 rest]]; [done..|].
  destruct (TYPE_MAP_QUANX !! _) as [k|]; [|done].
  destruct (negb (Str.nonempty k)); [done|].
  destruct (negb (Str.nonempty (Str.strip p1))); [done|].
  by intros [= <-].
Qed.

(** C8, as the specification states it, fails: on the line
    HOST,example.com,,reject,extra the field dropped is not the first one
    after the value (which is empty) but reject, and the options are
    [extra] and not [reject; extra]. *)
Lemma quanx_options_not_positional :
  ¬ (∀ raw_line r,
       parse_quanx_line raw_line = Yielded r →
       options r = drop 3 (quanx_parts raw_line)).
Proof.
  intros H.
  specialize (H "HOST,example.com,,reject,extra" (mkRule "DOMAIN" "example.com" ["extra"])).
  discriminate (H eq_refl).
Qed.

(** C8, amended. For every line the Quantumult-style adapter accepts, the
    options of the rule are the fields after the value, without the empty
    ones and then without the first that is left (the policy-group name).
    When no field after the value is empty these are the fields
    [f2, ..., fn] of a line [type, value, f1, f2, ..., fn]. *)
Theorem quanx_options_drop_policy (raw_line : string) (r : Rule) :
  parse_quanx_line raw_line = Yielded r →
  options r = tail (filter (λ item, Str.nonempty item) (drop 2 (quanx_parts raw_line)))
  ∧ (Forall (λ item, Str.nonempty item) (drop 2 (quanx_parts raw_line)) →
     options r = drop 3 (quanx_parts raw_line)).
Proof.
  intros Hr. rewrite (parse_quanx_line_options _ _ Hr).
  rewrite quanx_options_stripped by apply fields_stripped.
  split; [done|]. intros Hall.
  assert (filter (λ item, Str.nonempty item) (drop 2 (quanx_parts raw_line))
          = drop 2 (quanx_parts raw_line)) as ->.
  { induction Hall as [|item l Hne _ IH]; [done|].
    by rewrite filter_cons_True, IH by done. }
  destruct (quanx_parts raw_line) as [|p0 [|p1 [|p2 rest]]]; done.
Qed.

(** The amended property at work on a line whose fields after the value are
    all non-empty. *)
Lemma quanx_options_drop_policy_witness :
  let raw_line := "ip-cidr, 10.0.0.0/8, REJECT, no-resolve  # lan" in
  let r := mkRule "IP-CIDR" "10.0.0.0/8" ["no-resolve"] in
  parse_quanx_line raw_line = Yielded r
  ∧ Forall (λ item, Str.nonempty item) (drop 2 (quanx_parts raw_line))
  ∧ options r = tail (filter (λ item, Str.nonempty item) (drop 2 (quanx_parts raw_line)))
  ∧ options r = drop 3 (quanx_parts raw_line).
Proof.
  intros raw_line r.
  assert (Hr : parse_quanx_line raw_line = Yielded r) by reflexivity.
  assert (Hall : Forall (λ item, Str.nonempty item) (drop 2 (quanx_parts raw_line)))
    by (vm_compute; repeat constructor).
  split_and!; [exact Hr|exact Hall|..].
  - exact (proj1 (quanx_options_drop_policy raw_line r Hr)).
  - exact (proj2 (quanx_options_drop_policy raw_line r Hr) Hall).
Defined.

(** ** Serialisation round trip *)

Section RoundTrip.

Lemma token_char_visible c : token_char c → visible c.
Proof. unfold token_char. by intros [? _]%andb_prop_elim. Qed.

Lemma token_char_not_comma c : token_char c → bool_decide (c = ","%char) = false.
Proof.
  unfold token_char. intros [_ H]%andb_prop_elim.
  by destruct (bool_decide (c = ","%char)).
Qed.

Lemma visible_not_space c : visible c → Str.is_space c = false.
Proof. by destruct c as [[] [] [] [] [] [] [] []]. Qed.

Lemma visible_not_linebreak c : visible c → Str.is_linebreak c = false.
Proof. by destruct c as [[] [] [] [] [] [] [] []]. Qed.

Lemma forallb_impl (p q : ascii → bool) s :
  (∀ c, p c → q c) → Str.forallb p s → Str.forallb q s.
Proof.
  intros Hpq. induction s as [|c s IH]; [done|]. cbn [Str.forallb].
  intros [Hc Hs]%andb_prop_elim. apply andb_prop_intro. auto.
Qed.

Lemma forallb_app (p : ascii → bool) s t :
  Str.forallb p s → Str.forallb p t → Str.forallb p (s +:+ t).
Proof.
  intros Hs Ht. induction s as [|c s IH]; [done|].
  rewrite str_app_cons. cbn [Str.forallb] in *.
  apply andb_prop_elim in Hs as [Hc Hs]. apply andb_prop_intro. auto.
Qed.

Lemma forallb_join (p : ascii → bool) parts :
  p ","%char → Forall (λ part, Str.forallb p part) parts →
  Str.forallb p (Str.join "," parts).
Proof.
  intros Hsep Hparts. induction Hparts as [|x rest Hx Hrest IH]; [done|].
  destruct rest as [|y rest]; [done|].
  change (Str.join "," (x :: y :: rest)) with (x +:+ "," +:+ Str.join "," (y :: rest)).
  apply forallb_app; [done|]. apply forallb_app; [|done].
  cbn. by rewrite (Is_true_true_1 _ Hsep).
Qed.

Lemma join_cons_cons sep x y rest :
  Str.join sep (x :: y :: rest) = x +:+ sep +:+ Str.join sep (y :: rest).
Proof. reflexivity. Qed.

Lemma join_nonempty x rest : Str.nonempty x → Str.nonempty (Str.join "," (x :: rest)).
Proof. destruct x; [done|]. intros _. by destruct rest. Qed.

(** [strip], the removal of inline comments and [splitlines] leave alone
    a text without blanks. *)
Lemma rstrip_no_space s :
  Str.forallb (λ c, negb (Str.is_space c)) s → Str.rstrip s = s.
Proof.
  induction s as [|c s IH]; [done|]. cbn [Str.forallb].
  intros [Hc Hs]%andb_prop_elim. rewrite rstrip_cons, (IH Hs).
  destruct s; [|done]. by destruct (Str.is_space c).
Qed.

Lemma strip_no_space s :
  Str.forallb (λ c, negb (Str.is_space c)) s → Str.strip s = s.
Proof.
  intros Hs. unfold Str.strip. rewrite lstrip_fixed.
  - by apply rstrip_no_space.
  - destruct s as [|c s]; [done|]. cbn in *.
    apply andb_prop_elim in Hs as [Hc _]. by destruct (Str.is_space c).
Qed.

Lemma sub_inline_comment_no_space s :
  Str.forallb (λ c, negb (Str.is_space c)) s → sub_inline_comment s = s.
Proof.
  induction s as [|c s IH]; [done|]. cbn [Str.forallb].
  intros [Hc Hs]%andb_prop_elim. cbn [sub_inline_comment inline_comment_at].
  destruct (Str.is_space c); [done|]. by rewrite (IH Hs).
Qed.

Lemma splitlines_single s :
  Str.nonempty s → Str.forallb (λ c, negb (Str.is_linebreak c)) s →
  Str.splitlines s = [s].
Proof.
  induction s as [|c s IH]; [done|]. intros _. cbn [Str.forallb].
  intros [Hc Hs]%andb_prop_elim. cbn [Str.splitlines].
  destruct (Str.is_linebreak c); [done|].
  destruct s as [|c' s]; [done|]. by rewrite IH.
Qed.

(** [split] undoes [join] on fields without the separator. *)
Lemma split_no_sep s :
  Str.forallb (λ c, negb (bool_decide (c = ","%char))) s → Str.split "," s = [s].
Proof.
  induction s as [|c s IH]; [done|]. cbn [Str.forallb Str.split].
  intros [Hc Hs]%andb_prop_elim.
  destruct (bool_decide (c = ","%char)); [done|]. by rewrite (IH Hs).
Qed.

Lemma split_app_sep s t :
  Str.forallb (λ c, negb (bool_decide (c = ","%char))) s →
  Str.split "," (s +:+ "," +:+ t) = s :: Str.split "," t.
Proof.
  induction s as [|c s IH]; [done|]. cbn [Str.forallb].
  intros [Hc Hs]%andb_prop_elim. rewrite str_app_cons. cbn [Str.split].
  destruct (bool_decide (c = ","%char)); [done|]. by rewrite (IH Hs).
Qed.

Lemma split_join parts :
  parts ≠ [] →
  Forall (λ part, Str.forallb (λ c, negb (bool_decide (c = ","%char))) part) parts →
  Str.split "," (Str.join "," parts) = parts.
Proof.
  intros Hne Hparts. induction Hparts as [|x rest Hx Hrest IH]; [done|].
  destruct rest as [|y rest]; [by apply split_no_sep|].
  rewrite join_cons_cons, split_app_sep by done. by rewrite IH.
Qed.

(** A line of tokens goes through the common front of both adapters
    unchanged, and its fields are the tokens. *)
Lemma token_no_space s : token s → Str.forallb (λ c, negb (Str.is_space c)) s.
Proof.
  intros [_ H]. eapply forallb_impl; [|exact H].
  intros c Hc%token_char_visible%visible_not_space. by rewrite Hc.
Qed.

Lemma token_no_comma s :
  token s → Str.forallb (λ c, negb (bool_decide (c = ","%char))) s.
Proof.
  intros [_ H]. eapply forallb_impl; [|exact H].
  intros c Hc%token_char_not_comma. by rewrite Hc.
Qed.

Lemma token_stripped s : token s → Str.strip s = s.
Proof. intros. by apply strip_no_space, token_no_space. Qed.

Lemma line_no_space parts :
  Forall token parts → Str.forallb (λ c, negb (Str.is_space c)) (Str.join "," parts).
Proof.
  intros Hparts. apply forallb_join; [done|].
  eapply Forall_impl; [exact Hparts|]. apply token_no_space.
Qed.

Lemma line_no_linebreak parts :
  Forall token parts → Str.forallb (λ c, negb (Str.is_linebreak c)) (Str.join "," parts).
Proof.
  intros Hparts. apply forallb_join; [done|].
  eapply Forall_impl; [exact Hparts|]. intros s [_ H].
  eapply forallb_impl; [|exact H].
  intros c Hc%token_char_visible%visible_not_linebreak. by rewrite Hc.
Qed.

Lemma fields_line parts :
  parts ≠ [] → Forall token parts → fields (Str.join "," parts) = parts.
Proof.
  intros Hne Hparts. unfold fields. rewrite split_join; [|done|].
  - induction Hparts as [|x rest Hx _ IH]; [done|].
    cbn [fmap list_fmap]. rewrite (token_stripped _ Hx). f_equal.
    destruct rest; [done|]. by apply IH.
  - eapply Forall_impl; [exact Hparts|]. apply token_no_comma.
Qed.

Lemma is_blank_or_comment_line t rest :
  token t → rest ≠ [] →
  is_blank_or_comment (Str.join "," (t :: rest)) = is_blank_or_comment t.
Proof.
  intros [Hne _] Hrest. destruct rest as [|v rest]; [done|].
  rewrite join_cons_cons. destruct t as [|c t]; [done|].
  rewrite str_app_cons. unfold is_blank_or_comment. cbn.
  destruct t as [|d t]; [|done].
  cbn. by rewrite !andb_false_r.
Qed.

End RoundTrip.

Lemma normalize_value_fixed kind v : normal_value kind v → normalize_value kind v = v.
Proof.
  intros [Hlow Hanch]. unfold normalize_value.
  assert ((if bool_decide (kind ∈ DOMAIN_LIKE_TYPES) then Str.lower v else v) = v) as ->.
  { case_bool_decide; [auto|done]. }
  case_bool_decide as Hk; [|done].
  destruct (Hanch Hk). by apply normalize_regex_fixed.
Qed.

Lemma filter_tokens (f : string → bool) parts :
  (∀ s, token s → f s) → Forall token parts → filter (λ s, f s) parts = parts.
Proof.
  intros Hf Hparts. induction Hparts as [|x rest Hx _ IH]; [done|].
  rewrite filter_cons_True by auto. by rewrite IH.
Qed.

Lemma surge_options_tokens p0 p1 opts :
  Forall token opts → surge_options (p0 :: p1 :: opts) = opts.
Proof.
  intros Hopts. unfold surge_options.
  change (drop 2 (p0 :: p1 :: opts)) with opts.
  rewrite (filter_tokens (λ opt, Str.nonempty (Str.strip opt))).
  - induction Hopts as [|x rest Hx _ IH]; [done|].
    cbn [fmap list_fmap]. rewrite (token_stripped _ Hx). by f_equal.
  - intros s Hs. rewrite (token_stripped _ Hs). by destruct Hs.
  - done.
Qed.

Lemma quanx_options_tokens p0 p1 opts :
  Forall token (p0 :: p1 :: opts) → quanx_options (p0 :: p1 :: opts) = tail opts.
Proof.
  intros Hparts. rewrite quanx_options_stripped.
  - change (drop 2 (p0 :: p1 :: opts)) with opts.
    rewrite (filter_tokens Str.nonempty); [done| |].
    + by intros s [? _].
    + by do 2 apply Forall_cons in Hparts as [_ Hparts].
  - eapply Forall_impl; [exact Hparts|]. apply token_stripped.
Qed.

(** The common front of the two loops on the line of a rule. *)
Lemma line_front t v opts :
  token t → token v → Forall token opts →
  let line := Str.join "," (t :: v :: opts) in
  Str.splitlines line = [line]
  ∧ Str.strip line = line
  ∧ is_blank_or_comment line = is_blank_or_comment t
  ∧ strip_inline_comment line = line
  ∧ Str.nonempty line
  ∧ fields line = t :: v :: opts.
Proof.
  intros Ht Hv Hopts line.
  assert (Hparts : Forall token (t :: v :: opts)) by by repeat apply Forall_cons_2.
  assert (Hstrip : Str.strip line = line) by by apply strip_no_space, line_no_space.
  assert (Hne : Str.nonempty line) by (apply join_nonempty; by destruct Ht).
  split_and!; [|done| | |done|].
  - apply splitlines_single; [done|]. by apply line_no_linebreak.
  - by apply is_blank_or_comment_line.
  - unfold strip_inline_comment.
    rewrite sub_inline_comment_no_space by by apply line_no_space. done.
  - by apply fields_line.
Qed.

Lemma surge_round_trip r : surge_vocabulary r → parse_surge (to_line r) = [r].
Proof.
  intros [Ht Hup Hnc Hv Hnorm Hopts]. destruct r as [t v opts].
  cbn [rtype value options] in *.
  destruct (line_front t v opts Ht Hv Hopts) as (Hl & Hs & Hb & Hc & Hne & Hf).
  unfold parse_surge, to_line. cbn [rtype value options]. rewrite Hl.
  cbn [omap list_omap]. unfold parse_surge_line.
  rewrite Hs, Hb, Hnc, Hc, Hf, Hup, (token_stripped _ Hv).
  destruct Hv as [Hvne Hv]. apply Is_true_true in Hne, Hvne. rewrite Hne, Hvne.
  cbn [negb yielded].
  by rewrite normalize_value_fixed, surge_options_tokens.
Qed.

(** The keys of TYPE_MAP_QUANX are upper-case tokens that open no
    comment, and its values are not empty. *)
Lemma TYPE_MAP_QUANX_keys k k' :
  TYPE_MAP_QUANX !! k = Some k' →
  token k ∧ Str.upper k = k ∧ is_blank_or_comment k = false ∧ Str.nonempty k'.
Proof.
  intros H%elem_of_list_to_map_2.
  repeat (apply elem_of_cons in H as [[= -> ->]|H]; [by vm_compute|]).
  by apply elem_of_nil in H.
Qed.

Lemma TYPE_MAP_QUANX_fixed k : TYPE_MAP_QUANX !! k = Some k → k = "IP-CIDR".
Proof.
  intros H%elem_of_list_to_map_2.
  repeat (apply elem_of_cons in H as [[= Hk Hk']|H]; [congruence|]).
  by apply elem_of_nil in H.
Qed.

Lemma quanx_line_parsed k k' v opts :
  TYPE_MAP_QUANX !! k = Some k' → token v → normal_value k' v → Forall token opts →
  parse_quanx (to_line (mkRule k v opts)) = [mkRule k' v (tail opts)].
Proof.
  intros Hk Hv Hnorm Hopts.
  destruct (TYPE_MAP_QUANX_keys _ _ Hk) as (Ht & Hup & Hnc & Hk').
  destruct (line_front k v opts Ht Hv Hopts) as (Hl & Hs & Hb & Hc & Hne & Hf).
  unfold parse_quanx, to_line. cbn [rtype value options]. rewrite Hl.
  cbn [omap list_omap]. unfold parse_quanx_line.
  rewrite Hs, Hb, Hnc, Hc, Hf, Hup, Hk, (token_stripped _ Hv).
  assert (Hvne : Str.nonempty v) by by destruct Hv.
  apply Is_true_true in Hne, Hvne, Hk'. rewrite Hne, Hvne, Hk'.
  cbn [negb yielded].
  rewrite normalize_value_fixed by done.
  rewrite quanx_options_tokens by by repeat apply Forall_cons_2. done.
Qed.

(** C3, as the specification states it, fails for the Quantumult-style
    adapter: the line of a rule with one option comes back without the
    option, and the line of a rule whose type is HOST-SUFFIX, a token the
    adapter recognizes, comes back with the type DOMAIN-SUFFIX. *)
Lemma quanx_round_trip_fails :
  let r1 := mkRule "IP-CIDR" "10.0.0.0/8" ["no-resolve"] in
  let r2 := mkRule "HOST-SUFFIX" "example.com" [] in
  ¬ ((is_Some (TYPE_MAP_QUANX !! rtype r1) → parse_quanx (to_line r1) = [r1])
     ∧ (is_Some (TYPE_MAP_QUANX !! rtype r2) → parse_quanx (to_line r2) = [r2])).
Proof.
  intros r1 r2 [H1 _].
  assert (Hk : is_Some (TYPE_MAP_QUANX !! rtype r1)) by (by exists "IP-CIDR").
  specialize (H1 Hk). vm_compute in H1. discriminate H1.
Qed.

Lemma quanx_renames_host_suffix :
  parse_quanx (to_line (mkRule "HOST-SUFFIX" "example.com" []))
  = [mkRule "DOMAIN-SUFFIX" "example.com" []].
Proof. reflexivity. Qed.

Lemma tail_fixed {A} (l : list A) : tail l = l → l = [].
Proof.
  intros H. destruct l as [|x l]; [done|].
  apply (f_equal length) in H. cbn in H. lia.
Qed.

(** C3, amended. Parsing the line of a rule gives back exactly that rule
    under the Surge-style adapter, for every rule of its vocabulary: an
    upper-case type that opens no comment, type, value and options that
    are non-empty and made of visible ASCII characters other than the
    comma, a lower-case value under a domain-like type and an anchored one
    under DOMAIN-REGEX.  Under the Quantumult-style adapter the line of a
    rule whose type token is recognized gives exactly one rule, with the
    renamed type, the same value and the options without the first; it is
    the original rule exactly when the type is IP-CIDR and there are no
    options. *)
Theorem serialization_round_trip :
  (∀ r, surge_vocabulary r → parse_surge (to_line r) = [r])
  ∧ (∀ r kind,
       TYPE_MAP_QUANX !! rtype r = Some kind →
       token (value r) → normal_value kind (value r) → Forall token (options r) →
       parse_quanx (to_line r) = [mkRule kind (value r) (tail (options r))]
       ∧ (parse_quanx (to_line r) = [r] ↔ rtype r = "IP-CIDR" ∧ options r = [])).
Proof.
  split; [apply surge_round_trip|].
  intros [k v opts] kind Hk Hv Hnorm Hopts. cbn [rtype value options] in *.
  assert (Hparse := quanx_line_parsed k kind v opts Hk Hv Hnorm Hopts).
  split; [done|]. rewrite Hparse. split.
  - intros [= -> Hopt]. split; [by apply TYPE_MAP_QUANX_fixed|by apply tail_fixed].
  - intros [-> ->]. vm_compute in Hk. by injection Hk as <-.
Qed.

(** The amended property at work on DOMAIN-SUFFIX,example.com,extra under the
    Surge-style adapter and on IP-CIDR,10.0.0.0/8 under the
    Quantumult-style one. *)
Lemma serialization_round_trip_witness :
  let r1 := mkRule "DOMAIN-SUFFIX" "example.com" ["extra"] in
  let r2 := mkRule "IP-CIDR" "10.0.0.0/8" [] in
  surge_vocabulary r1
  ∧ parse_surge (to_line r1) = [r1]
  ∧ TYPE_MAP_QUANX !! rtype r2 = Some "IP-CIDR"
  ∧ token (value r2) ∧ normal_value "IP-CIDR" (value r2) ∧ Forall token (options r2)
  ∧ parse_quanx (to_line r2) = [r2].
Proof.
  intros r1 r2.
  assert (H1 : surge_vocabulary r1).
  { split; [done..| |].
    - split; [reflexivity|discriminate].
    - by repeat apply Forall_cons_2. }
  assert (H2 : TYPE_MAP_QUANX !! rtype r2 = Some "IP-CIDR") by reflexivity.
  assert (H3 : token (value r2)) by done.
  assert (H4 : normal_value "IP-CIDR" (value r2)).
  { split; [|discriminate]. intros H. vm_compute in H. discriminate H. }
  assert (H5 : Forall token (options r2)) by constructor.
  split_and!; [done| |done..|].
  - exact (proj1 serialization_round_trip r1 H1).
  - exact (proj1 (proj2 serialization_round_trip r2 "IP-CIDR" H2 H3 H4 H5)).
Defined.

(** ** Fetch failures *)

Section FetchFailure.

Variable w : world.

Lemma fetch_text_response u text log :
  urlopen w u = Response text → fetch_text w u log = (Return text, log ++ [Fetch u]).
Proof. intros H. unfold fetch_text, mbind, io_bind, io_emit. by rewrite H. Qed.

Lemma fetch_text_error u exc log :
  urlopen w u = RaisesURLError exc →
  fetch_text w u log
  = (SystemExit ("Failed to download " +:+ u +:+ ": " +:+ exc), log ++ [Fetch u]).
Proof. intros H. unfold fetch_text, mbind, io_bind, io_emit. by rewrite H. Qed.

Lemma fetch_text_uncaught u exc log :
  urlopen w u = RaisesOther exc →
  fetch_text w u log = (Uncaught exc, log ++ [Fetch u]).
Proof. intros H. unfold fetch_text, mbind, io_bind, io_emit. by rewrite H. Qed.

Lemma fetched_app log1 log2 : fetched (log1 ++ log2) = fetched log1 ++ fetched log2.
Proof. apply omap_app. Qed.

Lemma written_app log1 log2 : written (log1 ++ log2) = written log1 ++ written log2.
Proof. apply omap_app. Qed.

Lemma fetched_stderr texts : fetched (Stderr <$> texts) = [].
Proof. induction texts; [done|]. done. Qed.

Lemma written_stderr texts : written (Stderr <$> texts) = [].
Proof. induction texts; [done|]. done. Qed.

Lemma no_mkdir_stderr texts : Forall (λ ev, ∀ path, ev ≠ Mkdir path) (Stderr <$> texts).
Proof. apply Forall_fmap, Forall_forall. done. Qed.

Lemma answers_dec source : answers w source ∨ ¬ answers w source.
Proof.
  unfold answers. destruct (urlopen w (url source)) as [text|exc|exc].
  - left. by exists text.
  - right. intros [text Htext]. discriminate Htext.
  - right. intros [text Htext]. discriminate Htext.
Qed.

(** One turn of the loop over the sources, by what the fetch answers. *)
Lemma fetch_all_response source sources text acc log :
  urlopen w (url source) = Response text →
  fetch_all w (source :: sources) acc log
  = if bool_decide (kind source = "quanx")
    then fetch_all w sources (collect (parse_quanx text) acc)
           ((log ++ [Fetch (url source)]) ++ (Stderr <$> parse_quanx_warnings text))
    else fetch_all w sources (collect (parse_surge text) acc) (log ++ [Fetch (url source)]).
Proof.
  intros Hopen. cbn [fetch_all]. unfold mbind at 1, io_bind at 1.
  rewrite (fetch_text_response _ _ _ Hopen).
  destruct (bool_decide (kind source = "quanx")); [|done].
  by unfold mbind at 1, io_bind at 1, io_emit.
Qed.

Lemma fetch_all_error source sources exc acc log :
  urlopen w (url source) = RaisesURLError exc →
  fetch_all w (source :: sources) acc log
  = (SystemExit (failure_message source exc), log ++ [Fetch (url source)]).
Proof.
  intros Hopen. cbn [fetch_all]. unfold mbind at 1, io_bind at 1.
  by rewrite (fetch_text_error _ _ _ Hopen).
Qed.

Lemma fetch_all_uncaught source sources exc acc log :
  urlopen w (url source) = RaisesOther exc →
  fetch_all w (source :: sources) acc log = (Uncaught exc, log ++ [Fetch (url source)]).
Proof.
  intros Hopen. cbn [fetch_all]. unfold mbind at 1, io_bind at 1.
  by rewrite (fetch_text_uncaught _ _ _ Hopen).
Qed.

(** The loop over the sources stops at the first one whose fetch fails,
    by [SystemExit] with the message of [fetch_text] when the exception is
    a [URLError], and by the exception itself otherwise: the sources
    before it were fetched once each, then the failing one, and no call
    was made to the file system. *)
Lemma fetch_all_failure : ∀ sources acc log,
  Exists (λ source, ¬ answers w source) sources →
  ∃ before source after log',
    sources = before ++ source :: after
    ∧ Forall (answers w) before
    ∧ ((∃ exc, urlopen w (url source) = RaisesURLError exc
               ∧ fetch_all w sources acc log
                 = (SystemExit (failure_message source exc), log'))
       ∨ (∃ exc, urlopen w (url source) = RaisesOther exc
                 ∧ fetch_all w sources acc log = (Uncaught exc, log')))
    ∧ fetched log' = fetched log ++ (url <$> (before ++ [source]))
    ∧ written log' = written log
    ∧ (Forall (λ ev, ∀ path, ev ≠ Mkdir path) log
       → Forall (λ ev, ∀ path, ev ≠ Mkdir path) log').
Proof.
  induction sources as [|source sources IH]; intros acc log Hex.
  - by apply Exists_nil in Hex.
  - destruct (urlopen w (url source)) as [text|exc|exc] eqn:Hopen.
    + assert (Hex' : Exists (λ source, ¬ answers w source) sources).
      { apply Exists_cons in Hex as [Hno|Hex]; [|done].
        destruct Hno. by exists text. }
      rewrite (fetch_all_response _ _ _ _ _ Hopen).
      destruct (bool_decide (kind source = "quanx")).
      * destruct (IH (collect (parse_quanx text) acc)
                     ((log ++ [Fetch (url source)]) ++ (Stderr <$> parse_quanx_warnings text))
                     Hex')
          as (before & src & after & log' & -> & Hbefore & Hend & Hf & Hw & Hm).
        exists (source :: before), src, after, log'.
        split_and!; [done| |done| | |].
        -- apply Forall_cons_2; [by exists text|done].
        -- rewrite Hf, !fetched_app, fetched_stderr. cbn.
           by rewrite app_nil_r, <-(assoc_L (++)).
        -- rewrite Hw, !written_app, written_stderr. cbn. by rewrite !app_nil_r.
        -- intros Hlog. apply Hm. rewrite !Forall_app. split_and!; [done| |].
           ++ by repeat constructor.
           ++ apply no_mkdir_stderr.
      * destruct (IH (collect (parse_surge text) acc) (log ++ [Fetch (url source)]) Hex')
          as (before & src & after & log' & -> & Hbefore & Hend & Hf & Hw & Hm).
        exists (source :: before), src, after, log'.
        split_and!; [done| |done| | |].
        -- apply Forall_cons_2; [by exists text|done].
        -- rewrite Hf, !fetched_app. cbn. by rewrite <-(assoc_L (++)).
        -- rewrite Hw, !written_app. cbn. by rewrite !app_nil_r.
        -- intros Hlog. apply Hm. rewrite !Forall_app. split; [done|].
           by repeat constructor.
    + exists [], source, sources, (log ++ [Fetch (url source)]).
      split_and!; [done|constructor| | | |].
      * left. exists exc. split; [done|]. by apply fetch_all_error.
      * by rewrite fetched_app.
      * rewrite written_app. cbn. by rewrite app_nil_r.
      * intros Hlog. rewrite Forall_app. split; [done|]. by repeat constructor.
    + exists [], source, sources, (log ++ [Fetch (url source)]).
      split_and!; [done|constructor| | | |].
      * right. exists exc. split; [done|]. by apply fetch_all_uncaught.
      * by rewrite fetched_app.
      * rewrite written_app. cbn. by rewrite app_nil_r.
      * intros Hlog. rewrite Forall_app. split; [done|]. by repeat constructor.
Qed.

End FetchFailure.

Lemma SOURCES_urls_NoDup : NoDup (url <$> SOURCES).
Proof. apply (bool_decide_unpack _). vm_compute. exact I. Qed.

(** The runs of the three example worlds. *)
Lemma run_failing_world :
  run failing_world
  = (1, [ Fetch "https://raw.githubusercontent.com/enriquephl/QuantumultX_config/main/filters/NoMalwares.conf";
          Fetch "https://raw.githubusercontent.com/Elysian-Realme/FuGfConfig/main/ConfigFile/QuantumultX/FuckRogueSoftwareRules.conf";
          Stderr "Failed to download https://raw.githubusercontent.com/Elysian-Realme/FuGfConfig/main/ConfigFile/QuantumultX/FuckRogueSoftwareRules.conf: <urlopen error timed out>" ]).
Proof. vm_compute. reflexivity. Qed.

Lemma run_answering_world :
  (run answering_world).1 = 0
  ∧ fetched (run answering_world).2 = url <$> SOURCES
  ∧ written (run answering_world).2
    = [ ("/repo/ruleset/reject.list",
         Str.join NL
           (header_lines answering_world ++ ["DOMAIN-WILDCARD,*.ads.example.com"]) +:+ NL) ].
Proof. vm_compute. done. Qed.

(** C9. The fetch of a source can fail without the run naming its URL.
    In the run in which the first source answers and the read of the
    second one's response times out, [response.read()] raises
    [TimeoutError], which is no [URLError]: it passes the handler of
    [fetch_text] and nothing in [main] catches it.  The run ends with
    status 1 and the interpreter's traceback; the third source is not
    fetched, no call is made to the file system, and the line
    [Failed to download <url>: <error>] is printed for no source. *)
Theorem read_timeout_not_reported :
  (url <$> SOURCES !! 1
   = Some "https://raw.githubusercontent.com/Elysian-Realme/FuGfConfig/main/ConfigFile/QuantumultX/FuckRogueSoftwareRules.conf")
  ∧ urlopen timeout_world
      "https://raw.githubusercontent.com/Elysian-Realme/FuGfConfig/main/ConfigFile/QuantumultX/FuckRogueSoftwareRules.conf"
    = RaisesOther "TimeoutError: The read operation timed out"
  ∧ run timeout_world
    = (1, [ Fetch "https://raw.githubusercontent.com/enriquephl/QuantumultX_config/main/filters/NoMalwares.conf";
            Fetch "https://raw.githubusercontent.com/Elysian-Realme/FuGfConfig/main/ConfigFile/QuantumultX/FuckRogueSoftwareRules.conf";
            Traceback "TimeoutError: The read operation timed out" ])
  ∧ ∀ source exc, Stderr (failure_message source exc) ∉ (run timeout_world).2.
Proof.
  assert (Hrun : run timeout_world
    = (1, [ Fetch "https://raw.githubusercontent.com/enriquephl/QuantumultX_config/main/filters/NoMalwares.conf";
            Fetch "https://raw.githubusercontent.com/Elysian-Realme/FuGfConfig/main/ConfigFile/QuantumultX/FuckRogueSoftwareRules.conf";
            Traceback "TimeoutError: The read operation timed out" ])).
  { vm_compute. reflexivity. }
  split_and!; [vm_compute; reflexivity..|exact Hrun|].
  intros source exc Hin. rewrite Hrun in Hin. cbn [snd] in Hin.
  repeat (apply elem_of_cons in Hin as [Hin|Hin]; [discriminate Hin|]).
  by apply elem_of_nil in Hin.
Qed.

(** ** Soundness of the generalisations *)

Section SplitJoin.

Lemma split_cons sep s : ∃ h r, Str.split sep s = h :: r.
Proof.
  destruct s as [|c s]; [by eexists _, _|]. cbn [Str.split].
  destruct (bool_decide (c = sep)); [by eexists _, _|].
  destruct (Str.split sep s); by eexists _, _.
Qed.



Lemma split_dot_free s : Forall dot_free (Str.split "." s).
Proof.
  induction s as [|c s IH]; [by apply Forall_cons_2|]. cbn [Str.split].
  case_bool_decide as Hc; [by apply Forall_cons_2|].
  destruct (split_cons "." s) as (h & r & Hs). rewrite Hs in *.
  apply Forall_cons in IH as [Hh Hr]. apply Forall_cons_2; [|done].
  unfold dot_free. cbn [Str.forallb]. apply andb_prop_intro. split; [|done].
  by rewrite bool_decide_eq_false_2.
Qed.


End SplitJoin.

Lemma foldl_invariant {A B} (P : A → Prop) (Q : B → Prop) (f : A → B → A) l a :
  P a → Forall Q l → (∀ a b, P a → Q b → P (f a b)) → P (foldl f a l).
Proof.
  intros Ha Hl Hf. revert a Ha.
  induction Hl as [|b l Hb _ IH]; intros a Ha; [done|]. cbn. auto.
Qed.

Lemma add_index_ok remaining key idx suffix_map :
  suffix_map_ok remaining suffix_map → indexed_under remaining key idx →
  suffix_map_ok remaining (add_index key idx suffix_map).
Proof.
  intros Hm Hidx. induction suffix_map as [|[key' indexes'] rest IH]; cbn [add_index].
  - intros k s i [= -> ->]%list_elem_of_singleton ->%elem_of_singleton. done.
  - assert (Hrest : suffix_map_ok remaining rest).
    { intros k s i Hin. apply Hm. by apply list_elem_of_further. }
    case_decide as Hk.
    + subst key'. intros k s i [[= -> ->]|Hin]%elem_of_cons.
      * intros [->%elem_of_singleton|Hi]%elem_of_union; [done|].
        apply (Hm key indexes'); [apply list_elem_of_here|done].
      * by apply Hrest.
    + intros k s i [[= -> ->]|Hin]%elem_of_cons.
      * apply Hm. apply list_elem_of_here.
      * by apply IH.
Qed.

Lemma index_rule_ok remaining idx rule suffix_map :
  suffix_map_ok remaining suffix_map →
  remaining !! idx = Some rule → rtype rule = "DOMAIN" →
  suffix_map_ok remaining (index_rule idx rule suffix_map).
Proof.
  intros Hm Hrule Ht. unfold index_rule.
  set (labels := Str.split "." (value rule)).
  destruct (length labels <? 3) eqn:Hlen; [done|]. apply Nat.ltb_ge in Hlen.
  apply (foldl_invariant (suffix_map_ok remaining)
           (λ suffix_len, 2 ≤ suffix_len ≤ length labels - 1)); [done| |].
  - apply Forall_forall. intros suffix_len Hin%elem_of_seq. lia.
  - intros m suffix_len Hok Hsl.
    destruct (length labels - suffix_len <? 1) eqn:Hpc; [done|]. apply Nat.ltb_ge in Hpc.
    apply add_index_ok; [done|]. exists rule. fold labels. cbn [fst snd].
    split_and!; [done..| |done|done].
    rewrite length_drop. lia.
Qed.

Lemma domain_indexes_spec remaining idx :
  idx ∈ domain_indexes remaining →
  ∃ rule, remaining !! idx = Some rule ∧ rtype rule = "DOMAIN".
Proof.
  unfold domain_indexes.
  intros ([i rule] & -> & [Ht Hin]%list_elem_of_filter)%list_elem_of_fmap.
  cbn [fst snd] in *. apply elem_of_enumerate in Hin.
  apply bool_decide_unpack in Ht. eauto.
Qed.

Lemma build_suffix_map_ok remaining :
  suffix_map_ok remaining (build_suffix_map remaining).
Proof.
  unfold build_suffix_map.
  apply (foldl_invariant (suffix_map_ok remaining)
           (λ idx, ∃ rule, remaining !! idx = Some rule ∧ rtype rule = "DOMAIN")).
  - intros k s i Hin. by apply elem_of_nil in Hin.
  - apply Forall_forall. apply domain_indexes_spec.
  - intros m idx Hok (rule & Hrule & Ht). rewrite Hrule. by eapply index_rule_ok.
Qed.




(** C1. The specification's soundness fails on the rules
    DOMAIN,.cdn.tracker.net and DOMAIN,a.b.tracker.net: the suffix engine
    accepts the candidate (tracker, net) with two prefix labels, emits
    DOMAIN-REGEX,^[^.]+\.[^.]+\.tracker\.net$ for it and consumes both
    rules, which leave the output; but the first label of .cdn.tracker.net
    is empty, so this value is not two non-empty dot-free labels followed
    by .tracker.net. *)
Theorem soundness_fails_on_empty_label :
  let r1 := mkRule "DOMAIN" ".cdn.tracker.net" [] in
  let r2 := mkRule "DOMAIN" "a.b.tracker.net" [] in
  let regex := mkRule "DOMAIN-REGEX" "^[^.]+\.[^.]+\.tracker\.net$" [] in
  emissions [r1; r2] = [mkEmission ["tracker"; "net"] 2 {[0; 1]} ∅ regex]
  ∧ remaining_rules [r1; r2] !! 0 = Some r1
  ∧ simplify_rules [r1; r2] = [regex]
  ∧ Str.split "." (value r1) = [EmptyString; "cdn"; "tracker"; "net"]
  ∧ ¬ regex_shape 2 (Str.join "." ["tracker"; "net"]) (value r1).
Proof.
  intros r1 r2 regex. split_and!; [by vm_compute..|].
  intros (labels & Hlen & Hall & Hv).
  destruct labels as [|l1 [|l2 [|??]]]; try done.
  apply Forall_cons in Hall as [[Hfree Hne] _].
  destruct l1 as [|c l1]; [done|].
  cbn in Hv. injection Hv as <- _. done.
Qed.

(** * Further properties of the script *)

(** ** The passes of simplify_rules *)

Lemma enumerate_snoc {A} (l : list A) x :
  enumerate (l ++ [x]) = enumerate l ++ [(length l, x)].
Proof. unfold enumerate. rewrite imap_app. cbn. by rewrite Nat.add_0_r. Qed.

Lemma elem_of_without_indexes (skip : gset nat) (rules : list Rule) r :
  r ∈ without_indexes skip rules ↔ ∃ i, rules !! i = Some r ∧ i ∉ skip.
Proof.
  unfold without_indexes. rewrite list_elem_of_fmap. split.
  - intros ([i r'] & -> & [Hskip Hin]%list_elem_of_filter). cbn [fst snd] in *.
    apply elem_of_enumerate in Hin. eauto.
  - intros (i & Hi & Hskip). exists (i, r). split; [done|].
    apply list_elem_of_filter. split; [done|]. by apply elem_of_enumerate.
Qed.

Lemma without_indexes_snoc (skip : gset nat) (rules : list Rule) r :
  without_indexes skip (rules ++ [r])
  = without_indexes skip rules ++ (if decide (length rules ∈ skip) then [] else [r]).
Proof.
  unfold without_indexes. rewrite enumerate_snoc, filter_app, fmap_app. f_equal.
  case_decide as Hin.
  - by rewrite filter_cons_False by (cbn; tauto).
  - by rewrite filter_cons_True by done.
Qed.

Lemma without_indexes_filter (P : Rule → Prop) `{!∀ r, Decision (P r)}
    (skip : gset nat) (rules : list Rule) :
  (∀ i r, rules !! i = Some r → (i ∈ skip ↔ ¬ P r)) →
  without_indexes skip rules = filter P rules.
Proof.
  induction rules as [|r rules IH] using rev_ind; intros Hskip; [done|].
  rewrite without_indexes_snoc, filter_app, IH.
  - f_equal. assert (Hr := Hskip (length rules) r (list_lookup_middle _ _ _ _ eq_refl)).
    case_decide as Hin.
    + by rewrite filter_cons_False by (by apply Hr).
    + rewrite filter_cons_True; [done|]. destruct (decide (P r)); [done|]. tauto.
  - intros i r' Hi. apply Hskip. by apply lookup_app_l_Some.
Qed.

Lemma promote_pass_snoc rules r :
  promote_pass (rules ++ [r])
  = match promote_dynamic_labels r with
    | Some promoted_rule =>
        ((promote_pass rules).1 ++ [promoted_rule], {[ length rules ]} ∪ (promote_pass rules).2)
    | None => promote_pass rules
    end.
Proof.
  unfold promote_pass. rewrite enumerate_snoc, foldl_snoc.
  destruct (foldl _ _ (enumerate rules)) as [promoted consumed].
  by destruct (promote_dynamic_labels r).
Qed.

Lemma promote_pass_consumed rules i :
  i ∈ (promote_pass rules).2
  ↔ ∃ r, rules !! i = Some r ∧ promote_dynamic_labels r ≠ None.
Proof.
  induction rules as [|r rules IH] using rev_ind.
  - cbn. split; [by intros ?%not_elem_of_empty|by intros (? & ? & _)].
  - rewrite promote_pass_snoc.
    destruct (promote_dynamic_labels r) as [r'|] eqn:Hr; cbn [snd].
    + rewrite elem_of_union, elem_of_singleton, IH. split.
      * intros [->|(r0 & Hi & Hp)].
        -- exists r. split; [by apply list_lookup_middle|congruence].
        -- exists r0. split; [by apply lookup_app_l_Some|done].
      * intros (r0 & Hi & Hp).
        apply lookup_app_Some in Hi as [Hi|[Hlen Hi]]; [right; eauto|left].
        apply list_lookup_singleton_Some in Hi as [Hi _]. lia.
    + rewrite IH. split.
      * intros (r0 & Hi & Hp). exists r0. split; [by apply lookup_app_l_Some|done].
      * intros (r0 & Hi & Hp).
        apply lookup_app_Some in Hi as [Hi|[Hlen Hi]]; [eauto|].
        apply list_lookup_singleton_Some in Hi as [_ <-]. congruence.
Qed.

Lemma promote_pass_promoted rules :
  (promote_pass rules).1 = omap promote_dynamic_labels rules.
Proof.
  induction rules as [|r rules IH] using rev_ind; [done|].
  rewrite promote_pass_snoc, omap_app. cbn [omap list_omap].
  destruct (promote_dynamic_labels r); cbn [fst]; rewrite IH; [done|].
  by rewrite app_nil_r.
Qed.

Lemma remaining_rules_filter rules :
  remaining_rules rules = filter (λ r, promote_dynamic_labels r = None) rules.
Proof.
  unfold remaining_rules. apply without_indexes_filter.
  intros i r Hi. rewrite promote_pass_consumed. split.
  - intros (r0 & Hi0 & Hp). congruence.
  - intros Hp. eauto.
Qed.

(** X1. The index bookkeeping of the first loop of [simplify_rules] amounts
    to a partition of the input: the promoted rules are the results of the
    promoter on the rules it accepts, in input order, and the remaining
    rules are the input rules it declines, in input order. *)
Theorem promote_pass_partition (rules : list Rule) :
  (promote_pass rules).1 = omap promote_dynamic_labels rules
  ∧ remaining_rules rules = filter (λ r, promote_dynamic_labels r = None) rules.
Proof. split; [apply promote_pass_promoted|apply remaining_rules_filter]. Qed.

Lemma elem_of_unique_from (seen : gset Rule) rules r :
  r ∈ unique_from seen rules ↔ r ∈ rules ∧ r ∉ seen.
Proof.
  revert seen. induction rules as [|r0 rules IH]; intros seen; cbn [unique_from].
  - rewrite elem_of_nil. tauto.
  - case_bool_decide as Hseen.
    + rewrite IH, elem_of_cons. split; [tauto|]. intros [[->|?] ?]; tauto.
    + rewrite !elem_of_cons, IH, elem_of_union, elem_of_singleton.
      destruct (decide (r = r0)) as [->|Hne]; tauto.
Qed.

Lemma NoDup_unique_from (seen : gset Rule) rules : NoDup (unique_from seen rules).
Proof.
  revert seen. induction rules as [|r0 rules IH]; intros seen; cbn [unique_from].
  - apply NoDup_nil_2.
  - case_bool_decide as Hseen; [apply IH|]. apply NoDup_cons_2; [|apply IH].
    rewrite elem_of_unique_from, elem_of_union, elem_of_singleton. tauto.
Qed.

(** What the greedy loop leaves in its state, in terms of its emissions. *)
Lemma run_engine_state rules :
  generalized (run_engine (remaining_rules rules)).1 = em_rule <$> emissions rules
  ∧ removed (run_engine (remaining_rules rules)).1 = ⋃ (em_active <$> emissions rules).
Proof.
  unfold emissions, run_engine.
  destruct (engine_loop _ _ _) as [st' ems] eqn:Hloop.
  destruct (engine_loop_emissions _ _ _ _ _ Hloop) as (Hg & Hr & _).
  split; [exact Hg|]. cbn [fst snd]. rewrite Hr. cbn. apply (left_id_L ∅ (∪)).
Qed.

Lemma elem_of_simplify_rules (rules : list Rule) (r : Rule) :
  r ∈ simplify_rules rules
  ↔ (∃ idx, remaining_rules rules !! idx = Some r
            ∧ ∀ em, em ∈ emissions rules → idx ∉ em_active em)
    ∨ (∃ em, em ∈ emissions rules ∧ em_rule em = r)
    ∨ (∃ r0, r0 ∈ rules ∧ promote_dynamic_labels r0 = Some r).
Proof.
  unfold simplify_rules.
  destruct (run_engine_state rules) as [-> ->].
  rewrite (promote_pass_promoted rules).
  rewrite elem_of_unique_from, !elem_of_app, elem_of_sorted, elem_of_without_indexes,
    list_elem_of_fmap, list_elem_of_omap.
  split.
  - intros [[(idx & Hidx & Hnot)|[(em & -> & Hem)|(r0 & Hr0 & Hp)]] _].
    + left. exists idx. split; [done|]. intros em Hem Hin. apply Hnot.
      apply elem_of_union_list. exists (em_active em). split; [|done].
      by apply list_elem_of_fmap_2.
    + right. left. eauto.
    + right. right. eauto.
  - intros H. split; [|apply not_elem_of_empty].
    destruct H as [(idx & Hidx & Hnot)|[(em & Hem & <-)|(r0 & Hr0 & Hp)]].
    + left. exists idx. split; [done|].
      intros (X & (em & -> & Hem)%list_elem_of_fmap & Hin)%elem_of_union_list.
      by apply (Hnot em).
    + right. left. eauto.
    + right. right. eauto.
Qed.

(** X2. The output of [simplify_rules] holds exactly: the remaining rules no
    accepted candidate consumed, the rules of the accepted candidates, and
    the promoted rules. *)
Theorem simplify_rules_elements (rules : list Rule) (r : Rule) :
  r ∈ simplify_rules rules
  ↔ (∃ idx, remaining_rules rules !! idx = Some r
            ∧ ∀ em, em ∈ emissions rules → idx ∉ em_active em)
    ∨ (∃ em, em ∈ emissions rules ∧ em_rule em = r)
    ∨ (∃ r0, r0 ∈ rules ∧ promote_dynamic_labels r0 = Some r).
Proof. exact (elem_of_simplify_rules rules r). Qed.

(** X3. The output of [simplify_rules] never holds a rule twice. *)
Theorem simplify_rules_NoDup (rules : list Rule) : NoDup (simplify_rules rules).
Proof. apply NoDup_unique_from. Qed.

Lemma promote_declines rule :
  ¬ (rtype rule = "DOMAIN" ∧ 3 ≤ length (Str.split "." (value rule))) →
  promote_dynamic_labels rule = None.
Proof.
  intros Hnot. unfold promote_dynamic_labels.
  case_bool_decide as Ht; cbn [negb]; [|done].
  destruct (length _ <? 3) eqn:Hlen; [done|]. apply Nat.ltb_ge in Hlen. tauto.
Qed.

Lemma promote_wildcard rule promoted_rule :
  promote_dynamic_labels rule = Some promoted_rule →
  rtype rule = "DOMAIN"
  ∧ rtype promoted_rule = "DOMAIN-WILDCARD"
  ∧ options promoted_rule = options rule.
Proof.
  unfold promote_dynamic_labels.
  case_bool_decide as Ht; cbn [negb]; [|done].
  destruct (length _ <? 3); [done|].
  destruct (dynamic_positions _); [done|]. by intros [= <-].
Qed.

Lemma generalized_rule_type suffix_str prefix_count opts :
  (rtype (generalized_rule suffix_str prefix_count opts) = "DOMAIN-WILDCARD"
   ∨ rtype (generalized_rule suffix_str prefix_count opts) = "DOMAIN-REGEX")
  ∧ options (generalized_rule suffix_str prefix_count opts) = opts.
Proof. unfold generalized_rule. case_bool_decide; cbn; tauto. Qed.

(** A rule consumed by an accepted candidate is a remaining DOMAIN rule
    whose labels are the candidate's prefix count of labels followed by
    its suffix, and whose options are those of the emitted rule. *)
Lemma consumed_rule rules em idx :
  em ∈ emissions rules → idx ∈ em_active em →
  ∃ rule,
    remaining_rules rules !! idx = Some rule
    ∧ rtype rule = "DOMAIN"
    ∧ length (Str.split "." (value rule)) = em_prefix_count em + length (em_suffix em)
    ∧ 1 ≤ em_prefix_count em
    ∧ 2 ≤ length (em_suffix em)
    ∧ drop (em_prefix_count em) (Str.split "." (value rule)) = em_suffix em
    ∧ options (em_rule em) = options rule.
Proof.
  intros Hem Hidx.
  destruct (emissions_accepted _ _ Hem)
    as (indexes & opts & Hin & Hact & _ & Hopts & Hsuffix & _ & Hrule).
  assert (Hidx' : idx ∈ indexes).
  { rewrite Hact in Hidx. by apply elem_of_filter in Hidx as [_ ?]. }
  destruct (build_suffix_map_ok _ _ _ _ Hin Hidx') as (rule & Hl & Ht & Hlen & Hpc & Hdrop).
  cbn [fst snd] in *. exists rule. split_and!; [done..|].
  rewrite Hrule, (Hopts idx rule Hidx Hl). apply generalized_rule_type.
Qed.

(** X4. Options uniformity: every rule an accepted candidate consumes has
    exactly the options of the rule emitted for it. *)
Theorem options_uniform (rules : list Rule) (em : emission) (idx : nat) (rule : Rule) :
  em ∈ emissions rules → idx ∈ em_active em →
  remaining_rules rules !! idx = Some rule →
  options rule = options (em_rule em).
Proof.
  intros Hem Hidx Hrule.
  destruct (consumed_rule _ _ _ Hem Hidx) as (rule' & Hrule' & _ & _ & _ & _ & _ & Hopts).
  congruence.
Qed.

(** X5. No input rule is lost silently: each one is in the output, or was
    promoted to a rule that is in the output, or was consumed by an
    accepted candidate whose rule is in the output. *)
Theorem rules_accounted (rules : list Rule) (r : Rule) :
  r ∈ rules →
  r ∈ simplify_rules rules
  ∨ (∃ promoted_rule,
       promote_dynamic_labels r = Some promoted_rule
       ∧ promoted_rule ∈ simplify_rules rules)
  ∨ (∃ em idx,
       em ∈ emissions rules ∧ idx ∈ em_active em
       ∧ remaining_rules rules !! idx = Some r
       ∧ em_rule em ∈ simplify_rules rules).
Proof.
  intros Hr. destruct (promote_dynamic_labels r) as [promoted_rule|] eqn:Hp.
  - right. left. exists promoted_rule. split; [done|].
    apply elem_of_simplify_rules. right. right. eauto.
  - assert (Hrem : r ∈ remaining_rules rules).
    { rewrite (remaining_rules_filter rules). by apply list_elem_of_filter. }
    apply list_elem_of_lookup in Hrem as [idx Hidx].
    destruct (decide (Exists (λ em, idx ∈ em_active em) (emissions rules))) as [Hex|Hex].
    + right. right. apply Exists_exists in Hex as (em & Hem & Hin).
      exists em, idx. split_and!; [done..|].
      apply elem_of_simplify_rules. right. left. eauto.
    + left. apply elem_of_simplify_rules. left. exists idx. split; [done|].
      intros em Hem Hin. apply Hex, Exists_exists. eauto.
Qed.

(** X6. [simplify_rules] keeps every rule that is not a DOMAIN rule, and
    every DOMAIN rule whose value has fewer than three labels. *)
Theorem other_rules_kept (rules : list Rule) (r : Rule) :
  r ∈ rules →
  ¬ (rtype r = "DOMAIN" ∧ 3 ≤ length (Str.split "." (value r))) →
  r ∈ simplify_rules rules.
Proof.
  intros Hr Hnot.
  assert (Hrem : r ∈ remaining_rules rules).
  { rewrite (remaining_rules_filter rules).
    apply list_elem_of_filter. split; [by apply promote_declines|done]. }
  apply list_elem_of_lookup in Hrem as [idx Hidx].
  apply elem_of_simplify_rules. left. exists idx. split; [done|].
  intros em Hem Hin.
  destruct (consumed_rule _ _ _ Hem Hin) as (rule & Hrule & Ht & Hlen & Hpc & Hsuf & _).
  assert (rule = r) as -> by congruence. apply Hnot. split; [done|lia].
Qed.

(** X7. [simplify_rules] makes up no rule of another type: a rule of its
    output is a rule of its input, or a DOMAIN-WILDCARD or DOMAIN-REGEX
    rule. *)
Theorem simplify_rules_provenance (rules : list Rule) (r : Rule) :
  r ∈ simplify_rules rules →
  r ∈ rules ∨ rtype r = "DOMAIN-WILDCARD" ∨ rtype r = "DOMAIN-REGEX".
Proof.
  intros [(idx & Hidx & _)|[(em & Hem & <-)|(r0 & Hr0 & Hp)]]%elem_of_simplify_rules.
  - left. apply list_elem_of_lookup_2 in Hidx.
    rewrite (remaining_rules_filter rules) in Hidx.
    by apply list_elem_of_filter in Hidx as [_ ?].
  - right. destruct (emissions_accepted _ _ Hem) as (_ & opts & _ & _ & _ & _ & _ & _ & ->).
    apply generalized_rule_type.
  - right. left. by apply promote_wildcard in Hp as (_ & ? & _).
Qed.

(** ** The candidates of the suffix engine *)

Lemma existsb_app (p : ascii → bool) s t :
  Str.existsb p (s +:+ t) = Str.existsb p s || Str.existsb p t.
Proof.
  induction s as [|c s IH]; [done|].
  rewrite str_app_cons. cbn [Str.existsb]. by rewrite IH, orb_assoc.
Qed.

Lemma join_has_sep (labels : list string) :
  2 ≤ length labels →
  Str.existsb (λ c, bool_decide (c = "."%char)) (Str.join "." labels) = true.
Proof.
  destruct labels as [|x [|y rest]]; cbn [length]; [lia..|]. intros _.
  rewrite join_cons_cons, !existsb_app. cbn. by rewrite orb_true_r.
Qed.

Lemma add_index_bounded key idx suffix_map :
  keys_bounded suffix_map → 2 ≤ length key.1 ≤ 5 → 1 ≤ key.2 →
  keys_bounded (add_index key idx suffix_map).
Proof.
  intros Hm Hlen Hpc. induction suffix_map as [|[key' indexes'] rest IH]; cbn [add_index].
  - intros k s [= -> ->]%list_elem_of_singleton. split_and!; [lia..|].
    set_solver.
  - assert (Hrest : keys_bounded rest).
    { intros k s Hin. apply Hm. by apply list_elem_of_further. }
    destruct (Hm key' indexes' (list_elem_of_here _ _)) as (? & ? & ?).
    case_decide as Hk.
    + intros k s [[= -> ->]|Hin]%elem_of_cons; [|by apply Hrest].
      split_and!; [lia..|]. intros Hempty.
      set_solver.
    + intros k s [[= -> ->]|Hin]%elem_of_cons; [done|by apply IH].
Qed.

Lemma build_suffix_map_bounded remaining : keys_bounded (build_suffix_map remaining).
Proof.
  unfold build_suffix_map.
  apply (foldl_invariant keys_bounded (λ _ : nat, True)).
  - intros k s Hin. by apply elem_of_nil in Hin.
  - by apply Forall_forall.
  - intros m idx Hok _. destruct (remaining !! idx) as [rule|]; [|done].
    unfold index_rule. set (labels := Str.split "." (value rule)).
    destruct (length labels <? 3) eqn:Hlen; [done|]. apply Nat.ltb_ge in Hlen.
    apply (foldl_invariant keys_bounded
             (λ suffix_len, 2 ≤ suffix_len ≤ (length labels - 1) `min` 5)); [done| |].
    + apply Forall_forall. intros suffix_len Hin%elem_of_seq. lia.
    + intros m' suffix_len Hok' Hsl.
      destruct (length labels - suffix_len <? 1) eqn:Hpc; [done|]. apply Nat.ltb_ge in Hpc.
      apply add_index_bounded; [done|..]; cbn [fst snd]; [|lia].
      rewrite length_drop. lia.
Qed.

(** X8. Every candidate of the suffix engine has a suffix of two to five
    labels, at least one prefix label and at least one supporting index;
    its suffix string therefore contains a dot and is none of com, net, org
    and cn, so that the test of line 228 never rejects a candidate. *)
Theorem candidates_bounded (remaining : list Rule) (suffix : list string)
    (prefix_count : nat) (indexes : gset nat) :
  ((suffix, prefix_count), indexes) ∈ build_suffix_map remaining →
  2 ≤ length suffix ≤ 5
  ∧ 1 ≤ prefix_count
  ∧ indexes ≠ ∅
  ∧ (length suffix <? 2) || bool_decide (Str.join "." suffix ∈ GENERIC_SUFFIXES) = false.
Proof.
  intros Hin. destruct (build_suffix_map_bounded _ _ _ Hin) as (Hlen & Hpc & Hne).
  cbn [fst snd] in *. split_and!; [lia..|done|].
  apply orb_false_iff. split; [apply Nat.ltb_ge; lia|].
  apply bool_decide_eq_false. intros Hgen.
  assert (Hdot := join_has_sep suffix (proj1 Hlen)).
  unfold GENERIC_SUFFIXES in Hgen.
  rewrite !elem_of_union, !elem_of_singleton in Hgen.
  destruct Hgen as [[[Hs|Hs]|Hs]|Hs]; rewrite Hs in Hdot; discriminate Hdot.
Qed.

(** X9. No index is consumed twice: the active sets of two different accepted
    candidates are disjoint. *)
Theorem consumed_once (rules : list Rule) (i j : nat) (em1 em2 : emission) :
  emissions rules !! i = Some em1 → emissions rules !! j = Some em2 → i ≠ j →
  em_active em1 ## em_active em2.
Proof.
  assert (Hlt : ∀ i j em1 em2,
    emissions rules !! i = Some em1 → emissions rules !! j = Some em2 → i < j →
    em_active em1 ## em_active em2).
  { clear. intros i j em1 em2 Hi Hj Hlt.
    assert (Hsplit := take_drop_middle _ _ _ Hj).
    assert (Hem2 : em2 ∈ emissions rules) by by eapply list_elem_of_lookup_2.
    destruct (emissions_accepted _ _ Hem2) as (indexes & _ & _ & Hact & _).
    unfold emissions, run_engine in Hsplit.
    destruct (engine_loop _ _ _) as [st' ems] eqn:Hloop. cbn [snd] in Hsplit.
    assert (Hbefore := engine_loop_removed_before _ _ _ _ _ _ _
                         (eq_trans Hloop (f_equal (pair st') (eq_sym Hsplit)))).
    cbn [removed] in Hbefore.
    assert (Hin1 : em_active em1 ⊆ em_removed_before em2).
    { rewrite Hbefore. intros x Hx. apply elem_of_union. right.
      apply elem_of_union_list. exists (em_active em1). split; [|done].
      apply list_elem_of_fmap_2. apply (list_elem_of_lookup_2 _ i).
      rewrite lookup_take_lt by done.
      unfold emissions, run_engine in Hi. by rewrite Hloop in Hi. }
    intros x Hx1 Hx2. rewrite Hact in Hx2.
    apply elem_of_filter in Hx2 as [Hx2 _]. by apply Hx2, Hin1. }
  intros Hi Hj Hne. destruct (decide (i < j)) as [?|?].
  - by apply (Hlt i j).
  - symmetry. apply (Hlt j i); [done..|lia].
Qed.

Lemma engine_loop_new_rules remaining items : ∀ st st' ems,
  engine_loop remaining st items = (st', ems) →
  existing_rules st' = existing_rules st ∪ list_to_set (em_rule <$> ems)
  ∧ NoDup (em_rule <$> ems)
  ∧ Forall (λ em, em_rule em ∉ existing_rules st) ems.
Proof.
  induction items as [|[[suffix prefix_count] indexes] items IH]; intros st st' ems.
  - intros [= <- <-]. cbn. split_and!; [|apply NoDup_nil_2|done].
    by rewrite (right_id_L ∅ (∪)).
  - cbn [engine_loop].
    destruct (engine_step_cases remaining st suffix prefix_count indexes)
      as [->|(em & -> & _ & _ & _ & Hnew & _)];
      destruct (engine_loop remaining _ items) as [st2 ems2] eqn:Hloop;
      intros [= <- <-]; destruct (IH _ _ _ Hloop) as (Hex & Hnd & Hall);
      cbn [option_list app]; [done|].
    cbn [existing_rules] in Hex, Hall. cbn [fmap list_fmap list_to_set foldr].
    rewrite Forall_forall in Hall. split_and!.
    + rewrite Hex. cbn. set_solver.
    + apply NoDup_cons_2; [|done].
      intros (em' & Heq & Hem')%list_elem_of_fmap.
      apply (Hall em' Hem'). rewrite <-Heq. set_solver.
    + apply Forall_cons_2; [done|]. apply Forall_forall. intros em' Hem'.
      specialize (Hall em' Hem'). set_solver.
Qed.

(** X10. A generalised rule is new: the rules of the accepted candidates are
    pairwise different, and none of them is a rule that was there before
    the engine ran. *)
Theorem generalized_rules_new (rules : list Rule) :
  NoDup (em_rule <$> emissions rules)
  ∧ ∀ em, em ∈ emissions rules → em_rule em ∉ remaining_rules rules.
Proof.
  unfold emissions, run_engine.
  destruct (engine_loop _ _ _) as [st' ems] eqn:Hloop.
  destruct (engine_loop_new_rules _ _ _ _ _ Hloop) as (_ & Hnd & Hall).
  split; [done|]. intros em Hem. rewrite Forall_forall in Hall.
  specialize (Hall em Hem). cbn [existing_rules] in Hall.
  by rewrite elem_of_list_to_set in Hall.
Qed.

(** ** Inputs that are not generalised, and the size of the output *)

Lemma without_indexes_empty (rules : list Rule) : without_indexes ∅ rules = rules.
Proof.
  rewrite (without_indexes_filter (λ _, True)).
  - induction rules as [|r rules IH]; [done|]. by rewrite filter_cons_True, IH.
  - intros i r _. split; [by intros ?%not_elem_of_empty|tauto].
Qed.

Lemma no_emissions_simplify rules :
  emissions rules = [] →
  simplify_rules rules
  = unique_from ∅ (remaining_rules rules ++ omap promote_dynamic_labels rules).
Proof.
  intros Hems. unfold simplify_rules.
  destruct (run_engine_state rules) as [-> ->].
  rewrite Hems, (promote_pass_promoted rules). cbn.
  by rewrite without_indexes_empty.
Qed.

Lemma emission_has_consumed rules em :
  em ∈ emissions rules → ∃ idx, idx ∈ em_active em.
Proof.
  intros Hem. destruct (emissions_accepted _ _ Hem) as (_ & _ & _ & _ & Hsize & _).
  apply size_pos_elem_of. lia.
Qed.

Lemma all_declined (rules : list Rule) :
  (∀ r, r ∈ rules → promote_dynamic_labels r = None) →
  filter (λ r, promote_dynamic_labels r = None) rules = rules
  ∧ omap promote_dynamic_labels rules = [].
Proof.
  induction rules as [|r rules IH]; intros Hrules; [done|].
  destruct IH as [IH1 IH2]; [intros r0 Hr0; by apply Hrules, list_elem_of_further|].
  assert (Hr : promote_dynamic_labels r = None) by apply Hrules, list_elem_of_here.
  split.
  - by rewrite filter_cons_True, IH1 by done.
  - cbn [omap list_omap]. by rewrite Hr.
Qed.

(** X11. Without a DOMAIN rule of three labels or more, [simplify_rules] only
    removes duplicates: it returns the first occurrences of its input, in
    order. *)
Theorem simplify_rules_only_dedup (rules : list Rule) :
  (∀ r, r ∈ rules → ¬ (rtype r = "DOMAIN" ∧ 3 ≤ length (Str.split "." (value r)))) →
  simplify_rules rules = unique_from ∅ rules.
Proof.
  intros Hrules.
  destruct (all_declined rules) as [Hrem Hpro];
    [intros r Hr; by apply promote_declines, Hrules|].
  rewrite <-(remaining_rules_filter rules) in Hrem.
  rewrite no_emissions_simplify, Hrem, Hpro, app_nil_r; [done|].
  destruct (emissions rules) as [|em ems] eqn:Hems; [done|]. exfalso.
  assert (Hem : em ∈ emissions rules) by (rewrite Hems; apply list_elem_of_here).
  destruct (emission_has_consumed _ _ Hem) as [idx Hidx].
  destruct (consumed_rule _ _ _ Hem Hidx) as (rule & Hrule & Ht & Hlen & Hpc & Hsuf & _).
  apply list_elem_of_lookup_2 in Hrule. rewrite Hrem in Hrule.
  apply (Hrules rule Hrule). split; [done|lia].
Qed.

(** X12. A rule on its own is never generalised: the output is the rule
    itself, or its promoted form when the promoter accepts it. *)
Theorem simplify_rules_single (r : Rule) :
  simplify_rules [r] = [default r (promote_dynamic_labels r)].
Proof.
  assert (Hlen : length (remaining_rules [r]) ≤ 1).
  { rewrite (remaining_rules_filter [r]).
    etrans; [apply length_filter|]. done. }
  assert (Hems : emissions [r] = []).
  { destruct (emissions [r]) as [|em ems] eqn:Hems; [done|]. exfalso.
    assert (Hem : em ∈ emissions [r]) by (rewrite Hems; apply list_elem_of_here).
    destruct (emissions_accepted _ _ Hem) as (_ & _ & _ & _ & Hsize & _).
    assert (Hsub : em_active em ⊆ {[0]}).
    { intros idx Hidx. destruct (consumed_rule _ _ _ Hem Hidx) as (rule & Hrule & _).
      apply lookup_lt_Some in Hrule. apply elem_of_singleton. lia. }
    apply subseteq_size in Hsub. rewrite size_singleton in Hsub. lia. }
  rewrite (no_emissions_simplify _ Hems), (remaining_rules_filter [r]).
  cbn [omap list_omap]. destruct (promote_dynamic_labels r) as [r'|] eqn:Hp.
  - rewrite filter_cons_False by (rewrite Hp; done). cbn.
    rewrite bool_decide_eq_false_2 by apply not_elem_of_empty. done.
  - rewrite filter_cons_True by done. cbn.
    rewrite bool_decide_eq_false_2 by apply not_elem_of_empty. done.
Qed.

Lemma length_unique_from (seen : gset Rule) rules :
  length (unique_from seen rules) ≤ length rules.
Proof.
  revert seen. induction rules as [|r rules IH]; intros seen; cbn [unique_from]; [done|].
  case_bool_decide; cbn [length]; [etrans; [apply IH|lia]|]. specialize (IH ({[r]} ∪ seen)). lia.
Qed.

Lemma length_omap_filter {A B} (f : A → option B) (l : list A) :
  length (omap f l) + length (filter (λ x, f x = None) l) = length l.
Proof.
  induction l as [|x l IH]; [done|]. cbn [omap list_omap].
  destruct (f x) eqn:Hx.
  - rewrite filter_cons_False by (rewrite Hx; done). cbn [length]. lia.
  - rewrite filter_cons_True by done. cbn [length]. lia.
Qed.

Lemma length_insert_sorted {A} (le : A → A → bool) x l :
  length (insert_sorted le x l) = S (length l).
Proof.
  induction l as [|y l IH]; [done|]. cbn [insert_sorted].
  destruct (le x y); cbn [length]; [done|]. by rewrite IH.
Qed.

Lemma length_sorted {A} (le : A → A → bool) l : length (sorted le l) = length l.
Proof.
  induction l as [|x l IH]; [done|]. cbn [sorted foldr]. fold (sorted le l).
  by rewrite length_insert_sorted, IH.
Qed.

Lemma length_without_indexes (skip : gset nat) (rules : list Rule) :
  length (without_indexes skip rules) + size (filter (λ i, i < length rules) skip)
  = length rules.
Proof.
  induction rules as [|r rules IH] using rev_ind.
  - cbn [length].
    assert (filter (λ i, i < 0) skip = ∅) as ->.
    { apply set_eq. intros i. rewrite elem_of_filter, elem_of_empty. lia. }
    by rewrite size_empty.
  - rewrite without_indexes_snoc, !length_app. cbn [length].
    assert (Hsplit : filter (λ i, i < length rules + 1) skip
                     = filter (λ i, i < length rules) skip
                       ∪ (if decide (length rules ∈ skip) then {[length rules]} else ∅)).
    { apply set_eq. intros i. rewrite elem_of_union, !elem_of_filter.
      case_decide; [rewrite elem_of_singleton|rewrite elem_of_empty].
      - split; [intros [??]; destruct (decide (i = length rules)); [tauto|left; split; [lia|done]]|].
        intros [[??]| ->]; split; [lia|done|lia|done].
      - split; [intros [??]; left; split; [|done]|intros [[??]|[]]; split; [lia|done]].
        destruct (decide (i = length rules)); [congruence|lia]. }
    rewrite Hsplit, size_union.
    + case_decide; [rewrite size_singleton|rewrite size_empty]; cbn [length]; lia.
    + intros i [Hi _]%elem_of_filter Hi'. case_decide.
      * apply elem_of_singleton in Hi'. lia.
      * by apply elem_of_empty in Hi'.
Qed.

Lemma engine_loop_removed_size remaining items : ∀ st st' ems,
  engine_loop remaining st items = (st', ems) →
  size (removed st) + 2 * length ems ≤ size (removed st').
Proof.
  induction items as [|[[suffix prefix_count] indexes] items IH]; intros st st' ems.
  - intros [= <- <-]. cbn. lia.
  - cbn [engine_loop].
    destruct (engine_step_cases remaining st suffix prefix_count indexes)
      as [->|(em & -> & _ & _ & Hr & _ & Hacc)];
      destruct (engine_loop remaining _ items) as [st2 ems2] eqn:Hloop;
      intros [= <- <-]; specialize (IH _ _ _ Hloop);
      cbn [option_list app]; [done|].
    cbn [removed length] in *.
    destruct Hacc as (indexes' & _ & _ & Hact & Hsize & _).
    rewrite size_union in IH; [lia|].
    intros idx Hidx Hidx'. rewrite Hact, Hr in Hidx'.
    by apply elem_of_filter in Hidx' as [? _].
Qed.

(** X13. [simplify_rules] never lengthens the list, and every accepted
    candidate shortens it by one rule at least. *)
Theorem simplify_rules_length (rules : list Rule) :
  length (simplify_rules rules) + length (emissions rules) ≤ length rules.
Proof.
  assert (Hsize : 2 * length (emissions rules)
                  ≤ size (removed (run_engine (remaining_rules rules)).1)).
  { unfold emissions, run_engine.
    destruct (engine_loop _ _ _) as [st' ems] eqn:Hloop.
    apply engine_loop_removed_size in Hloop. cbn [removed fst snd] in *.
    rewrite size_empty in Hloop. lia. }
  assert (Hrange : filter (λ i, i < length (remaining_rules rules))
                     (removed (run_engine (remaining_rules rules)).1)
                   = removed (run_engine (remaining_rules rules)).1).
  { apply set_eq. intros idx. rewrite elem_of_filter. split; [tauto|].
    intros Hidx. split; [|done]. rewrite (proj2 (run_engine_state rules)) in Hidx.
    apply elem_of_union_list in Hidx as (X & (em & -> & Hem)%list_elem_of_fmap & Hidx).
    destruct (consumed_rule _ _ _ Hem Hidx) as (rule & Hrule & _).
    by apply lookup_lt_Some in Hrule. }
  assert (Hwo := length_without_indexes (removed (run_engine (remaining_rules rules)).1)
                   (remaining_rules rules)).
  rewrite Hrange in Hwo.
  assert (Hpart := length_omap_filter promote_dynamic_labels rules).
  rewrite <-(remaining_rules_filter rules) in Hpart.
  unfold simplify_rules. etrans; [apply Nat.add_le_mono_r, length_unique_from|].
  rewrite !length_app, length_sorted, (proj1 (run_engine_state rules)), length_fmap,
    (promote_pass_promoted rules).
  lia.
Qed.

(** ** What the adapters yield *)

Section Yielded.

Lemma lower_char_idemp c : Str.lower_char (Str.lower_char c) = Str.lower_char c.
Proof. by destruct c as [[] [] [] [] [] [] [] []]. Qed.

Lemma upper_char_idemp c : Str.upper_char (Str.upper_char c) = Str.upper_char c.
Proof. by destruct c as [[] [] [] [] [] [] [] []]. Qed.

Lemma lower_idemp s : Str.lower (Str.lower s) = Str.lower s.
Proof.
  unfold Str.lower. induction s as [|c s IH]; [done|].
  cbn [Str.map]. by rewrite lower_char_idemp, IH.
Qed.

Lemma upper_idemp s : Str.upper (Str.upper s) = Str.upper s.
Proof.
  unfold Str.upper. induction s as [|c s IH]; [done|].
  cbn [Str.map]. by rewrite upper_char_idemp, IH.
Qed.

Lemma lower_char_comma c :
  negb (bool_decide (c = ","%char)) → negb (bool_decide (Str.lower_char c = ","%char)).
Proof. by destruct c as [[] [] [] [] [] [] [] []]. Qed.

Lemma upper_char_comma c :
  negb (bool_decide (c = ","%char)) → negb (bool_decide (Str.upper_char c = ","%char)).
Proof. by destruct c as [[] [] [] [] [] [] [] []]. Qed.

Lemma comma_free_map (f : ascii → ascii) s :
  (∀ c, negb (bool_decide (c = ","%char)) → negb (bool_decide (f c = ","%char))) →
  comma_free s → comma_free (Str.map f s).
Proof.
  intros Hf. unfold comma_free. induction s as [|c s IH]; [done|].
  cbn [Str.map Str.forallb]. intros [Hc Hs]%andb_prop_elim.
  apply andb_prop_intro. auto.
Qed.

Lemma nonempty_map f s : Str.nonempty s → Str.nonempty (Str.map f s).
Proof. by destruct s. Qed.

Lemma forallb_lstrip (p : ascii → bool) s : Str.forallb p s → Str.forallb p (Str.lstrip s).
Proof.
  induction s as [|c s IH]; [done|]. cbn [Str.lstrip].
  destruct (Str.is_space c); [|done]. cbn [Str.forallb].
  intros [_ Hs]%andb_prop_elim. auto.
Qed.

Lemma forallb_rstrip (p : ascii → bool) s : Str.forallb p s → Str.forallb p (Str.rstrip s).
Proof.
  induction s as [|c s IH]; [done|]. rewrite rstrip_cons. cbn [Str.forallb].
  intros [Hc Hs]%andb_prop_elim. specialize (IH Hs).
  destruct (Str.rstrip s) as [|b r].
  - destruct (Str.is_space c); [done|]. cbn. by rewrite andb_true_r.
  - cbn [Str.forallb] in *. by apply andb_prop_intro.
Qed.

Lemma forallb_strip (p : ascii → bool) s : Str.forallb p s → Str.forallb p (Str.strip s).
Proof. intros. by apply forallb_rstrip, forallb_lstrip. Qed.

Lemma split_comma_free s : Forall comma_free (Str.split "," s).
Proof.
  induction s as [|c s IH]; [by apply Forall_cons_2|]. cbn [Str.split].
  case_bool_decide as Hc; [by apply Forall_cons_2|].
  destruct (split_cons "," s) as (h & r & Hs). rewrite Hs in *.
  apply Forall_cons in IH as [Hh Hr]. apply Forall_cons_2; [|done].
  unfold comma_free. cbn [Str.forallb]. apply andb_prop_intro. split; [|done].
  by rewrite bool_decide_eq_false_2.
Qed.

Lemma fields_comma_free line : Forall comma_free (fields line).
Proof.
  unfold fields. apply Forall_fmap. eapply Forall_impl; [apply split_comma_free|].
  intros s Hs. by apply forallb_strip.
Qed.

Lemma normalize_regex_comma_free v : comma_free v → comma_free (normalize_regex v).
Proof.
  intros Hv. unfold normalize_regex.
  assert (Hs : comma_free (Str.strip v)) by by apply forallb_strip.
  destruct (regex_has_boundary _); cbn [negb]; [done|].
  assert (Hs' : comma_free
            (if negb (Str.startswith "^" (Str.strip v)) then "^" +:+ Str.strip v
             else Str.strip v)).
  { destruct (negb _); [|done]. by apply forallb_app. }
  destruct (negb (Str.endswith_char "$" _)); [|done]. by apply forallb_app.
Qed.

Lemma startswith_nonempty c s : Str.startswith (String c EmptyString) s = true → Str.nonempty s.
Proof. by destruct s. Qed.

(** The value normalisation gives a normal value, not empty and without
    a comma if it was given one. *)
Lemma normalize_value_normal kind v :
  Str.nonempty v → comma_free v →
  Str.nonempty (normalize_value kind v)
  ∧ normal_value kind (normalize_value kind v)
  ∧ comma_free (normalize_value kind v).
Proof.
  intros Hne Hcf. unfold normalize_value, normal_value.
  destruct (bool_decide (kind = "DOMAIN-REGEX")) eqn:Hre.
  - apply bool_decide_eq_true in Hre. subst kind.
    rewrite (bool_decide_eq_false_2 ("DOMAIN-REGEX" ∈ DOMAIN_LIKE_TYPES))
      by (by vm_compute).
    destruct (normalize_regex_anchored v) as [Hs He].
    split_and!; [by eapply startswith_nonempty| |done|by apply normalize_regex_comma_free].
    intros H. by vm_compute in H.
  - apply bool_decide_eq_false in Hre. case_bool_decide as Hdl.
    + split_and!; [by apply nonempty_map|intros _; apply lower_idemp|done|].
      apply comma_free_map; [apply lower_char_comma|done].
    + split_and!; done.
Qed.

Lemma quanx_options_normal line :
  Forall (λ opt, (Str.nonempty opt ∧ Str.strip opt = opt) ∧ comma_free opt)
    (quanx_options (fields line)).
Proof.
  rewrite quanx_options_stripped by apply fields_stripped.
  assert (H : Forall (λ opt, (Str.nonempty opt ∧ Str.strip opt = opt) ∧ comma_free opt)
                (filter (λ item, Str.nonempty item) (drop 2 (fields line)))).
  { apply Forall_forall. intros opt [Hne Hin%(subseteq_drop 2)]%list_elem_of_filter.
    assert (Hs := fields_stripped line). assert (Hc := fields_comma_free line).
    rewrite Forall_forall in Hs, Hc. split_and!; [done|by apply Hs|by apply Hc]. }
  destruct (filter _ _); [done|]. by apply Forall_cons in H as [_ ?].
Qed.

Lemma surge_options_normal line :
  Forall (λ opt, (Str.nonempty opt ∧ Str.strip opt = opt) ∧ comma_free opt)
    (surge_options (fields line)).
Proof.
  unfold surge_options. apply Forall_fmap, Forall_forall.
  intros opt [Hne Hin%(subseteq_drop 2)]%list_elem_of_filter. cbn.
  split_and!; [done|apply strip_idemp|].
  apply forallb_strip. assert (Hc := fields_comma_free line).
  rewrite Forall_forall in Hc. by apply Hc.
Qed.

Lemma TYPE_MAP_QUANX_values k kind :
  TYPE_MAP_QUANX !! k = Some kind → is_Some (TYPE_ORDER !! kind) ∧ comma_free kind.
Proof.
  intros H%elem_of_list_to_map_2.
  repeat (apply elem_of_cons in H as [[= -> ->]|H];
          [split; [eexists; vm_compute; reflexivity|by vm_compute]|]).
  by apply elem_of_nil in H.
Qed.

End Yielded.

(** X14. Every rule the Quantumult-style adapter yields has one of the seven
    types of TYPE_ORDER and is normalized: its value is not empty, is
    lower-case under a domain-like type and anchored under DOMAIN-REGEX,
    its options are not empty and are stripped, and none of its fields
    contains a comma. *)
Theorem parse_quanx_normalized (content : string) (r : Rule) :
  r ∈ parse_quanx content → is_Some (TYPE_ORDER !! rtype r) ∧ normalized r.
Proof.
  unfold parse_quanx. intros (raw_line & _ & Hr)%list_elem_of_omap.
  unfold parse_quanx_line in Hr.
  destruct (is_blank_or_comment _); [done|].
  set (line := strip_inline_comment _) in *.
  destruct (negb (Str.nonempty line)); [done|].
  assert (Hf := fields_comma_free line). assert (Hopts := quanx_options_normal line).
  destruct (fields line) as [|p0 [|p1 rest]] eqn:Hparts; [done..|].
  destruct (TYPE_MAP_QUANX !! _) as [k|] eqn:Hk; [|done].
  destruct (negb (Str.nonempty k)); [done|].
  destruct (Str.nonempty (Str.strip p1)) eqn:Hne; [|done]. cbn in Hr. injection Hr as <-.
  destruct (TYPE_MAP_QUANX_values _ _ Hk) as [Hord Hkc].
  apply Forall_cons in Hf as [_ [Hp1 _]%Forall_cons].
  destruct (normalize_value_normal k (Str.strip p1)) as (Hv & Hn & Hc);
    [by rewrite Hne|by apply forallb_strip|].
  split; [done|]. split; cbn [rtype value options]; [done..| |].
  - eapply Forall_impl; [exact Hopts|]. by intros opt [? _].
  - repeat apply Forall_cons_2; [done..|].
    eapply Forall_impl; [exact Hopts|]. by intros opt [_ ?].
Qed.

(** X15. Every rule the Surge-style adapter yields has an upper-case type and
    is normalized in the same way. *)
Theorem parse_surge_normalized (content : string) (r : Rule) :
  r ∈ parse_surge content → Str.upper (rtype r) = rtype r ∧ normalized r.
Proof.
  unfold parse_surge. intros (raw_line & _ & Hr)%list_elem_of_omap.
  unfold parse_surge_line in Hr.
  destruct (is_blank_or_comment _); [done|].
  set (line := strip_inline_comment _) in *.
  destruct (negb (Str.nonempty line)); [done|].
  assert (Hf := fields_comma_free line). assert (Hopts := surge_options_normal line).
  destruct (fields line) as [|p0 [|p1 rest]] eqn:Hparts; [done..|].
  destruct (Str.nonempty (Str.strip p1)) eqn:Hne; [|done]. cbn in Hr. injection Hr as <-.
  apply Forall_cons in Hf as [Hp0 [Hp1 _]%Forall_cons].
  destruct (normalize_value_normal (Str.upper p0) (Str.strip p1)) as (Hv & Hn & Hc);
    [by rewrite Hne|by apply forallb_strip|].
  split; [apply upper_idemp|]. split; cbn [rtype value options]; [done..| |].
  - eapply Forall_impl; [exact Hopts|]. by intros opt [? _].
  - repeat apply Forall_cons_2; [by apply comma_free_map; [apply upper_char_comma|]|done|].
    eapply Forall_impl; [exact Hopts|]. by intros opt [_ ?].
Qed.

(** ** Serialised lines and their order *)

(** X16. The line of a rule whose fields have no comma splits back into the
    fields, so that two such rules with the same line are the same rule:
    a list of different rules is written as different lines. *)
Theorem to_line_decodes (r1 r2 : Rule) :
  Forall comma_free (rtype r1 :: value r1 :: options r1) →
  Forall comma_free (rtype r2 :: value r2 :: options r2) →
  Str.split "," (to_line r1) = rtype r1 :: value r1 :: options r1
  ∧ (to_line r1 = to_line r2 → r1 = r2).
Proof.
  intros H1 H2.
  assert (Hsplit : ∀ r, Forall comma_free (rtype r :: value r :: options r) →
                        Str.split "," (to_line r) = rtype r :: value r :: options r).
  { intros r Hr. unfold to_line. by apply split_join. }
  split; [by apply Hsplit|]. intros Heq.
  assert (Hfields : rtype r1 :: value r1 :: options r1 = rtype r2 :: value r2 :: options r2).
  { rewrite <-(Hsplit r1 H1), <-(Hsplit r2 H2). by rewrite Heq. }
  destruct r1, r2. cbn in Hfields. by injection Hfields as -> -> ->.
Qed.

Lemma partition_app_sep s t :
  comma_free s → Str.partition "," (s +:+ "," +:+ t) = (s, t).
Proof.
  unfold comma_free. induction s as [|c s IH]; [done|]. cbn [Str.forallb].
  intros [Hc Hs]%andb_prop_elim. rewrite str_app_cons. cbn [Str.partition].
  destruct (bool_decide (c = ","%char)); [done|]. by rewrite (IH Hs).
Qed.

(** X17. The sort key of the line of a rule is its type's rank, its type and
    the rest of the line, when the type has no comma. *)
Theorem sort_key_to_line (r : Rule) :
  comma_free (rtype r) →
  sort_key (to_line r)
  = (type_order (rtype r), rtype r, Str.join "," (value r :: options r)).
Proof.
  intros Ht. unfold sort_key, to_line.
  by rewrite join_cons_cons, partition_app_sep.
Qed.

Section Sorted.

Context {A : Type} (le : A → A → bool).

Lemma insert_sorted_Permutation x l : insert_sorted le x l ≡ₚ x :: l.
Proof.
  induction l as [|y l IH]; [done|]. cbn [insert_sorted].
  destruct (le x y); [done|]. rewrite IH. apply Permutation_swap.
Qed.

Lemma sorted_Permutation l : sorted le l ≡ₚ l.
Proof.
  induction l as [|x l IH]; [done|]. cbn [sorted foldr]. fold (sorted le l).
  by rewrite insert_sorted_Permutation, IH.
Qed.

Hypothesis le_total : ∀ x y, le x y = true ∨ le y x = true.

Lemma HdRel_insert_sorted a x l :
  HdRel (λ x y, le x y) a l → le a x → HdRel (λ x y, le x y) a (insert_sorted le x l).
Proof.
  intros Hl Hx. destruct l as [|y l]; cbn [insert_sorted]; [by constructor|].
  destruct (le x y); constructor; [done|]. by inversion Hl.
Qed.

Lemma Sorted_insert_sorted x l :
  Sorted (λ x y, le x y) l → Sorted (λ x y, le x y) (insert_sorted le x l).
Proof.
  induction 1 as [|y l Hl IH Hhd]; cbn [insert_sorted]; [by repeat constructor|].
  destruct (le x y) eqn:Hxy.
  - constructor; [by constructor|]. constructor. by rewrite Hxy.
  - constructor; [done|]. apply HdRel_insert_sorted; [done|].
    destruct (le_total x y) as [H|H]; [congruence|by rewrite H].
Qed.

Lemma Sorted_sorted l : Sorted (λ x y, le x y) (sorted le l).
Proof.
  induction l as [|x l IH]; [constructor|]. cbn [sorted foldr]. fold (sorted le l).
  by apply Sorted_insert_sorted.
Qed.

End Sorted.

Lemma string_compare_refl s : String.compare s s = Eq.
Proof.
  induction s as [|c s IH]; [done|]. cbn [String.compare].
  unfold Ascii.compare. by rewrite N.compare_refl.
Qed.

Lemma sort_key_le_total a b : sort_key_le a b = true ∨ sort_key_le b a = true.
Proof.
  destruct a as [[a1 a2] a3], b as [[b1 b2] b3]. unfold sort_key_le.
  destruct (Z.lt_trichotomy a1 b1) as [Hlt|[->|Hgt]].
  - left. by rewrite (proj2 (Z.ltb_lt _ _) Hlt).
  - rewrite Z.ltb_irrefl, Z.eqb_refl. cbn [orb andb]. unfold String.ltb.
    destruct (String.compare a2 b2) eqn:Hcmp.
    + apply String.compare_eq_iff in Hcmp as ->.
      rewrite String.eqb_refl. cbn [orb andb].
      rewrite string_compare_refl.
      cbn [orb]. apply String.leb_total.
    + by left.
    + right. rewrite String.compare_antisym, Hcmp. done.
  - right. by rewrite (proj2 (Z.ltb_lt _ _) Hgt).
Qed.

(** X18. [sort_rules] returns its lines rearranged, none lost and none added,
    with the sort keys of neighbours in order. *)
Theorem sort_rules_sorted (lines : list string) :
  sort_rules lines ≡ₚ lines
  ∧ Sorted (λ a b, sort_key_le (sort_key a) (sort_key b)) (sort_rules lines).
Proof.
  split; [apply sorted_Permutation|].
  apply (Sorted_sorted (λ a b, sort_key_le (sort_key a) (sort_key b))).
  intros a b. apply sort_key_le_total.
Qed.

(** ** Runs in which every source answers *)

(** The two-level loop of [main] that collects the rules is one pass of
    first-occurrence deduplication over all the rules in order. *)
Lemma collect_unique rules acc seen :
  collect rules (acc, seen) = (acc ++ unique_from seen rules, seen ∪ list_to_set rules).
Proof.
  unfold collect. revert acc seen.
  induction rules as [|r rules IH]; intros acc seen; cbn [foldl unique_from list_to_set foldr].
  - f_equal; [by rewrite app_nil_r|by rewrite (right_id_L ∅ (∪))].
  - case_bool_decide as Hseen; rewrite IH; f_equal.
    + set_solver.
    + by rewrite <-(assoc_L (++)).
    + set_solver.
Qed.

Lemma unique_from_app (seen : gset Rule) l1 l2 :
  unique_from seen (l1 ++ l2)
  = unique_from seen l1 ++ unique_from (seen ∪ list_to_set l1) l2.
Proof.
  revert seen. induction l1 as [|r l1 IH]; intros seen; cbn [app unique_from list_to_set foldr].
  - by rewrite (right_id_L ∅ (∪)).
  - case_bool_decide as Hseen; rewrite IH.
    + assert (seen ∪ ({[r]} ∪ list_to_set l1) = seen ∪ list_to_set l1) as -> by set_solver.
      done.
    + by rewrite (assoc_L (∪)), (comm_L (∪) seen {[r]}).
Qed.

Section Answering.

Variable w : world.

Lemma fetch_all_success : ∀ sources acc seen log,
  Forall (answers w) sources →
  ∃ log',
    fetch_all w sources (acc, seen) log
    = (Return (acc ++ unique_from seen (all_rules w sources),
               seen ∪ list_to_set (all_rules w sources)), log')
    ∧ fetched log' = fetched log ++ (url <$> sources)
    ∧ written log' = written log
    ∧ (Forall (λ ev, ∀ path, ev ≠ Mkdir path) log'
       ↔ Forall (λ ev, ∀ path, ev ≠ Mkdir path) log).
Proof.
  induction sources as [|source sources IH]; intros acc seen log Hall.
  - exists log. cbn. rewrite !app_nil_r, (right_id_L ∅ (∪)). done.
  - apply Forall_cons in Hall as [[text Htext] Hall].
    cbn [fetch_all]. unfold mbind at 1, io_bind at 1.
    rewrite (fetch_text_response _ _ _ _ Htext).
    unfold all_rules. cbn [fmap list_fmap mjoin list_join]. fold (all_rules w sources).
    unfold source_rules at 1 3. rewrite Htext.
    rewrite unique_from_app, (assoc_L (++)), list_to_set_app_L, (assoc_L (∪)).
    destruct (bool_decide (kind source = "quanx")).
    + unfold mbind at 1, io_bind at 1, io_emit. rewrite collect_unique.
      destruct (IH (acc ++ unique_from seen (parse_quanx text))
                   (seen ∪ list_to_set (parse_quanx text))
                   ((log ++ [Fetch (url source)]) ++ (Stderr <$> parse_quanx_warnings text))
                   Hall) as (log' & -> & Hf & Hw & Hm).
      exists log'. split_and!; [done| | |].
      * rewrite Hf, !fetched_app, fetched_stderr. cbn.
        by rewrite app_nil_r, <-(assoc_L (++)).
      * rewrite Hw, !written_app, written_stderr. cbn. by rewrite !app_nil_r.
      * rewrite Hm, !Forall_app. split; [tauto|]. intros Hlog. split_and!; [done| |].
        -- by repeat constructor.
        -- apply Forall_fmap, Forall_forall. done.
    + rewrite collect_unique.
      destruct (IH (acc ++ unique_from seen (parse_surge text))
                   (seen ∪ list_to_set (parse_surge text))
                   (log ++ [Fetch (url source)]) Hall) as (log' & -> & Hf & Hw & Hm).
      exists log'. split_and!; [done| | |].
      * rewrite Hf, !fetched_app. cbn. by rewrite <-(assoc_L (++)).
      * rewrite Hw, !written_app. cbn. by rewrite !app_nil_r.
      * rewrite Hm, !Forall_app. split; [tauto|]. intros Hlog. split; [done|].
        by repeat constructor.
Qed.

Lemma answers_or_fails sources :
  Forall (answers w) sources ∨ Exists (λ source, ¬ answers w source) sources.
Proof.
  induction sources as [|source sources IH]; [by left|].
  destruct (answers_dec w source) as [Hyes|Hno].
  - destruct IH as [IH|IH]; [left|right].
    + by apply Forall_cons_2.
    + by apply Exists_cons_tl.
  - right. by apply Exists_cons_hd.
Qed.

(** [main] once every source has answered: the two calls to the file
    system, each of which ends the run when it raises. *)
Lemma main_answering :
  Forall (answers w) SOURCES →
  ∃ log,
    fetched log = url <$> SOURCES
    ∧ written log = []
    ∧ Forall (λ ev, ∀ path, ev ≠ Mkdir path) log
    ∧ main w []
      = match mkdir w (TARGET_DIR w) with
        | RaisesOSError exc => (Uncaught exc, log ++ [Mkdir (TARGET_DIR w)])
        | Done =>
            (match write_text w (TARGET_PATH w) (output_text w) with
             | Done => Return ()
             | RaisesOSError exc => Uncaught exc
             end,
             log ++ [Mkdir (TARGET_DIR w); WriteText (TARGET_PATH w) (output_text w)])
        end.
Proof.
  intros Hall.
  destruct (fetch_all_success SOURCES [] ∅ [] Hall) as (log & Hrun & Hf & Hw & Hm).
  exists log. split_and!; [done..|by apply Hm|].
  unfold main. unfold mbind at 1, io_bind at 1. rewrite Hrun.
  cbn [fst app]. fold (output_text w).
  unfold fs_call, mbind, io_bind, io_emit, mret, io_ret, io_uncaught.
  destruct (mkdir w (TARGET_DIR w)) as [|exc]; [|done].
  rewrite <-(assoc_L (++)). cbn [app].
  by destruct (write_text w (TARGET_PATH w) (output_text w)).
Qed.

(** A run in which a fetch fails. *)
Lemma run_failure :
  Exists (λ source, ¬ answers w source) SOURCES →
  ∃ before source after ending log,
    SOURCES = before ++ source :: after
    ∧ Forall (answers w) before
    ∧ run w = (1, log ++ [ending])
    ∧ ((∃ exc, urlopen w (url source) = RaisesURLError exc
               ∧ ending = Stderr (failure_message source exc))
       ∨ (∃ exc, urlopen w (url source) = RaisesOther exc ∧ ending = Traceback exc))
    ∧ fetched log = url <$> (before ++ [source])
    ∧ written log = []
    ∧ Forall (λ ev, ∀ path, ev ≠ Mkdir path) log.
Proof.
  intros Hex.
  destruct (fetch_all_failure w SOURCES ([], ∅) [] Hex)
    as (before & source & after & log & Hsplit & Hbefore & Hend & Hf & Hw & Hm).
  destruct Hend as [(exc & Hexc & Hrun)|(exc & Hexc & Hrun)].
  - exists before, source, after, (Stderr (failure_message source exc)), log.
    split_and!; [done..| |by left; exists exc|done|done|by apply Hm].
    unfold run, main. unfold mbind at 1, io_bind at 1. by rewrite Hrun.
  - exists before, source, after, (Traceback exc), log.
    split_and!; [done..| |by right; exists exc|done|done|by apply Hm].
    unfold run, main. unfold mbind at 1, io_bind at 1. by rewrite Hrun.
Qed.

End Answering.

(** X19. When every source answers and the file system lets the run make
    the target directory and write the target file, the run ends with
    status 0; it fetched every source once, in order, then called [mkdir]
    for the target directory and [write_text] for the target file, once:
    the header, then the sorted lines of the simplified first occurrences
    of all the rules, each line ended by a line feed. *)
Theorem run_success (w : world) :
  Forall (answers w) SOURCES →
  mkdir_returns w →
  write_returns w →
  ∃ log,
    run w = (0, log ++ [Mkdir (TARGET_DIR w); WriteText (TARGET_PATH w) (output_text w)])
    ∧ fetched log = url <$> SOURCES
    ∧ written log = []
    ∧ Forall (λ ev, ∀ path, ev ≠ Mkdir path) log.
Proof.
  intros Hall Hmkdir Hwrite.
  destruct (main_answering w Hall) as (log & Hf & Hw & Hm & Hmain).
  exists log. split_and!; [|done..].
  unfold run. rewrite Hmain. unfold mkdir_returns in Hmkdir. unfold write_returns in Hwrite.
  by rewrite Hmkdir, Hwrite.
Qed.

(** X20. The exit status of a run is 0 exactly when every source answers
    and both calls to the file system return.  [write_text] is called
    exactly when every source answers and [mkdir] returns, and then once,
    for the target file with the text of the run; otherwise the run makes
    no call to it. *)
Theorem run_status (w : world) :
  ((run w).1 = 0 ↔ Forall (answers w) SOURCES ∧ mkdir_returns w ∧ write_returns w)
  ∧ (written (run w).2 = [(TARGET_PATH w, output_text w)]
     ↔ Forall (answers w) SOURCES ∧ mkdir_returns w)
  ∧ (written (run w).2 = [] ↔ ¬ (Forall (answers w) SOURCES ∧ mkdir_returns w)).
Proof.
  unfold mkdir_returns, write_returns.
  destruct (answers_or_fails w SOURCES) as [Hall|Hex].
  - destruct (main_answering w Hall) as (log & Hf & Hw & Hm & Hmain).
    unfold run. rewrite Hmain.
    destruct (mkdir w (TARGET_DIR w)) as [|exc].
    + destruct (write_text w (TARGET_PATH w) (output_text w)) as [|exc];
        cbn [fst snd]; rewrite <-?(assoc_L (++)), !written_app, Hw; cbn;
        (split_and!; split; try done; try tauto).
      all: try (intros (_ & _ & Habs); discriminate Habs).
    + cbn [fst snd]. rewrite <-(assoc_L (++)), !written_app, Hw. cbn.
      split_and!; split; try done; try tauto.
      all: try (intros (_ & Habs & _); discriminate Habs).
      all: try (intros (_ & Habs); discriminate Habs).
      intros _ (_ & Habs). discriminate Habs.
  - destruct (run_failure w Hex)
      as (before & source & after & ending & log & Hsplit & _ & -> & Hend & _ & Hw & _).
    assert (Hnot : ¬ Forall (answers w) SOURCES).
    { intros Hall. rewrite Forall_forall in Hall.
      destruct (Hall source) as [text Htext].
      - rewrite Hsplit. apply elem_of_app. right. apply list_elem_of_here.
      - destruct Hend as [(exc & Hexc & _)|(exc & Hexc & _)]; congruence. }
    assert (Hwritten : written (log ++ [ending]) = []).
    { rewrite written_app, Hw.
      by destruct Hend as [(exc & _ & ->)|(exc & _ & ->)]. }
    cbn [fst snd]. rewrite Hwritten.
    split_and!; split; try done; tauto.
Qed.

(** X25. A run in which the fetch of some source raises ends there: with
    status 1, after fetching every source up to and including the first
    one that does not answer once each and no source after it, and without
    a call to [mkdir] or to [write_text].  When the exception is a
    [URLError] the last thing on stderr is the line
    [Failed to download <url>: <error>] of that source; when it is of
    another class, the run ends with the interpreter's traceback of it. *)
Theorem failed_fetch_ends_run (w : world) :
  (∃ source, source ∈ SOURCES ∧ ¬ answers w source) →
  ∃ before source after,
    SOURCES = before ++ source :: after
    ∧ Forall (answers w) before
    ∧ ¬ answers w source
    ∧ (run w).1 = 1
    ∧ (∀ exc, urlopen w (url source) = RaisesURLError exc →
         last (run w).2
         = Some (Stderr ("Failed to download " +:+ url source +:+ ": " +:+ exc)))
    ∧ (∀ exc, urlopen w (url source) = RaisesOther exc →
         last (run w).2 = Some (Traceback exc))
    ∧ written (run w).2 = []
    ∧ Forall (λ ev, ∀ path, ev ≠ Mkdir path) (run w).2
    ∧ fetched (run w).2 = url <$> (before ++ [source])
    ∧ NoDup (fetched (run w).2).
Proof.
  intros (source0 & Hin & Hno).
  assert (Hex : Exists (λ source, ¬ answers w source) SOURCES).
  { apply Exists_exists. eauto. }
  destruct (run_failure w Hex)
    as (before & source & after & ending & log & Hsplit & Hbefore & Hrun & Hend & Hf & Hw & Hm).
  exists before, source, after. rewrite Hrun. cbn [fst snd].
  assert (Hquiet : fetched [ending] = [] ∧ written [ending] = []
                   ∧ ∀ path, ending ≠ Mkdir path).
  { by destruct Hend as [(exc & _ & ->)|(exc & _ & ->)]. }
  destruct Hquiet as (Hqf & Hqw & Hqm).
  assert (Hfetched : fetched (log ++ [ending]) = url <$> (before ++ [source])).
  { by rewrite fetched_app, Hf, Hqf, app_nil_r. }
  split_and!; [done|done| |done| | | | |done|].
  - intros [text Htext].
    destruct Hend as [(exc & Hexc & _)|(exc & Hexc & _)]; congruence.
  - intros exc Hexc. rewrite last_snoc.
    destruct Hend as [(exc' & Hexc' & ->)|(exc' & Hexc' & ->)]; [|congruence].
    unfold failure_message. congruence.
  - intros exc Hexc. rewrite last_snoc.
    destruct Hend as [(exc' & Hexc' & ->)|(exc' & Hexc' & ->)]; congruence.
  - by rewrite written_app, Hw, Hqw.
  - rewrite Forall_app. split; [done|]. by repeat constructor.
  - rewrite Hfetched.
    assert (Hnd := SOURCES_urls_NoDup). rewrite Hsplit in Hnd.
    rewrite fmap_app in Hnd |- *. cbn [fmap list_fmap] in Hnd |- *.
    apply NoDup_app in Hnd as (Hb & Hdisj & Hs). apply NoDup_cons in Hs as [_ _].
    apply NoDup_app. split_and!; [done| |apply NoDup_singleton].
    intros u Hu Hu'%list_elem_of_singleton. subst u.
    apply (Hdisj _ Hu). apply list_elem_of_here.
Qed.

(** ** The order in which candidates are accepted *)

Lemma triple_le_spec a b :
  triple_le a b
  ↔ (a.1.1 < b.1.1
     ∨ (a.1.1 = b.1.1 ∧ (a.1.2 < b.1.2 ∨ (a.1.2 = b.1.2 ∧ a.2 ≤ b.2))))%Z.
Proof.
  destruct a as [[a1 a2] a3], b as [[b1 b2] b3]. unfold triple_le. cbn [fst snd].
  destruct (Z.ltb_spec a1 b1), (Z.eqb_spec a1 b1), (Z.ltb_spec a2 b2),
    (Z.eqb_spec a2 b2), (Z.leb_spec a3 b3); cbn; intuition lia.
Qed.

Lemma triple_le_total a b : triple_le a b = true ∨ triple_le b a = true.
Proof.
  rewrite <-!Is_true_true, !triple_le_spec.
  destruct a as [[a1 a2] a3], b as [[b1 b2] b3]. cbn [fst snd]. lia.
Qed.

Lemma triple_le_trans : Transitive (λ a b : Z * Z * Z, Is_true (triple_le a b)).
Proof.
  intros a b c. rewrite !triple_le_spec.
  destruct a as [[a1 a2] a3], b as [[b1 b2] b3], c as [[c1 c2] c3]. cbn [fst snd]. lia.
Qed.

Lemma sorted_candidates_StronglySorted suffix_map :
  StronglySorted (λ a b, ranked_before a.1 b.1) (sorted_candidates suffix_map).
Proof.
  assert (Htrans : Transitive (λ a b : suffix_key * gset nat,
                                 Is_true (triple_le (candidate_key a) (candidate_key b)))).
  { intros a b c. apply triple_le_trans. }
  assert (Hs : StronglySorted (λ a b, triple_le (candidate_key a) (candidate_key b))
                 (sorted_candidates suffix_map)).
  { apply Sorted_StronglySorted; [done|]. unfold sorted_candidates.
    apply (Sorted_sorted (λ a b, triple_le (candidate_key a) (candidate_key b))).
    intros a b. apply triple_le_total. }
  induction Hs as [|a l _ IH Hall]; constructor; [done|].
  eapply Forall_impl; [exact Hall|]. intros b Hab%triple_le_spec.
  destruct a as [[s1 p1] i1], b as [[s2 p2] i2]. unfold ranked_before. cbn in *. lia.
Qed.

Lemma engine_loop_keys remaining items : ∀ st st' ems,
  engine_loop remaining st items = (st', ems) →
  (em_key <$> ems) `sublist_of` (fst <$> items).
Proof.
  induction items as [|[[suffix prefix_count] indexes] items IH]; intros st st' ems.
  - intros [= <- <-]. done.
  - cbn [engine_loop].
    destruct (engine_step_cases remaining st suffix prefix_count indexes)
      as [->|(em & -> & Hs & Hp & _)];
      destruct (engine_loop remaining _ items) as [st2 ems2] eqn:Hloop;
      intros [= <- <-]; specialize (IH _ _ _ Hloop); cbn [option_list app fmap list_fmap].
    + by apply sublist_cons.
    + unfold em_key at 1. rewrite Hs, Hp. by apply sublist_skip.
Qed.

Lemma StronglySorted_sublist {A} (R : relation A) l1 l2 :
  l1 `sublist_of` l2 → StronglySorted R l2 → StronglySorted R l1.
Proof.
  induction 1 as [|x l1 l2 Hsub IH|x l1 l2 Hsub IH]; intros Hs; [done|..];
    apply StronglySorted_inv in Hs as [Hs Hall].
  - constructor; [auto|]. rewrite Forall_forall in Hall |- *.
    intros y Hy. apply Hall. by eapply elem_of_sublist.
  - auto.
Qed.

Lemma StronglySorted_fmap_impl {A B} (R : relation A) (R' : relation B) (f : A → B) l :
  (∀ x y, R x y → R' (f x) (f y)) → StronglySorted R l → StronglySorted R' (f <$> l).
Proof.
  intros Hf. induction 1 as [|x l _ IH Hall]; cbn [fmap list_fmap]; constructor; [done|].
  apply Forall_fmap. eapply Forall_impl; [exact Hall|]. intros y. apply Hf.
Qed.

Lemma StronglySorted_lookup {A} (R : relation A) l i j x y :
  StronglySorted R l → l !! i = Some x → l !! j = Some y → i < j → R x y.
Proof.
  intros Hs. revert i j. induction Hs as [|z l _ IH Hall]; intros i j Hi Hj Hlt; [done|].
  destruct j as [|j]; [lia|]. destruct i as [|i]; cbn in Hi, Hj.
  - injection Hi as ->. rewrite Forall_forall in Hall. apply Hall.
    by eapply list_elem_of_lookup_2.
  - apply (IH i j); [done..|lia].
Qed.

(** X21. The greedy loop accepts its candidates in the order of their
    priority: of two accepted candidates, the one accepted first has the
    longer suffix, or a suffix of the same length and at most the prefix
    count of the other. *)
Theorem emissions_by_priority (rules : list Rule) (i j : nat) (em1 em2 : emission) :
  emissions rules !! i = Some em1 → emissions rules !! j = Some em2 → i < j →
  ranked_before (em_key em1) (em_key em2).
Proof.
  intros Hi Hj Hlt. unfold emissions, run_engine in Hi, Hj.
  destruct (engine_loop _ _ _) as [st' ems] eqn:Hloop. cbn [snd] in Hi, Hj.
  assert (Hsorted : StronglySorted ranked_before (em_key <$> ems)).
  { eapply StronglySorted_sublist; [by eapply engine_loop_keys|].
    apply (StronglySorted_fmap_impl (λ a b, ranked_before a.1 b.1)); [done|].
    apply sorted_candidates_StronglySorted. }
  apply (StronglySorted_lookup _ _ i j _ _ Hsorted); [|..|done];
    rewrite list_lookup_fmap; [by rewrite Hi|by rewrite Hj].
Qed.

(** ** The labels of a promoted value *)

Lemma split_free sep s :
  Str.forallb (λ c, negb (bool_decide (c = sep))) s → Str.split sep s = [s].
Proof.
  induction s as [|c s IH]; [done|]. cbn [Str.forallb Str.split].
  intros [Hc Hs]%andb_prop_elim.
  destruct (bool_decide (c = sep)); [done|]. by rewrite (IH Hs).
Qed.

Lemma split_app_sep_free sep s t :
  Str.forallb (λ c, negb (bool_decide (c = sep))) s →
  Str.split sep (s +:+ String sep t) = s :: Str.split sep t.
Proof.
  induction s as [|c s IH].
  - intros _. rewrite str_app_nil_l. cbn [Str.split].
    by rewrite bool_decide_eq_true_2.
  - cbn [Str.forallb]. intros [Hc Hs]%andb_prop_elim.
    rewrite str_app_cons. cbn [Str.split].
    destruct (bool_decide (c = sep)); [done|]. by rewrite (IH Hs).
Qed.

(** [split] undoes [join] on labels without the separator. *)
Lemma split_join_sep sep parts :
  parts ≠ [] →
  Forall (λ part, Str.forallb (λ c, negb (bool_decide (c = sep))) part) parts →
  Str.split sep (Str.join (String sep EmptyString) parts) = parts.
Proof.
  intros Hne Hparts. induction Hparts as [|x rest Hx Hrest IH]; [done|].
  destruct rest as [|y rest]; [by apply split_free|].
  rewrite join_cons_cons. rewrite str_app_cons, str_app_nil_l.
  rewrite split_app_sep_free by done. by rewrite IH.
Qed.

(** X22. Promotion rewrites labels in place: the promoted value has as many
    labels as the original, each of them the original label or a star, at
    least one star among them, and its last two labels are those of the
    original. *)
Theorem promoted_labels (rule promoted_rule : Rule) :
  promote_dynamic_labels rule = Some promoted_rule →
  let labels := Str.split "." (value rule) in
  let new_labels := Str.split "." (value promoted_rule) in
  length new_labels = length labels
  ∧ (∀ i label new_label,
       labels !! i = Some label → new_labels !! i = Some new_label →
       new_label = label ∨ (new_label = "*" ∧ flagged labels i label = true))
  ∧ "*" ∈ new_labels
  ∧ drop (length labels - 2) new_labels = drop (length labels - 2) labels.
Proof.
  intros Hp labels new_labels.
  assert (Hnew : new_labels
                 = imap (λ i label, if flagged labels i label then "*" else label) labels
                 ∧ ∃ i, i ∈ dynamic_positions labels).
  { unfold promote_dynamic_labels in Hp. fold labels in Hp.
    destruct (negb _); [done|]. destruct (length labels <? 3); [done|].
    destruct (dynamic_positions labels) as [|p ps] eqn:Hpos; [done|].
    injection Hp as <-. split; [|exists p; apply list_elem_of_here].
    unfold new_labels. cbn [value].
    change (foldl (λ new_labels idx, <[idx := "*"]> new_labels) (<[p := "*"]> labels) ps)
      with (foldl (λ new_labels idx, <[idx := "*"]> new_labels) labels (p :: ps)).
    rewrite <-Hpos, foldl_insert_star.
    apply (split_join_sep "."%char).
    - destruct (split_cons "." (value rule)) as (h & r & Hs). fold labels in Hs.
      by rewrite Hs.
    - apply Forall_forall. intros l (i & label & -> & Hl)%elem_of_lookup_imap.
      destruct (flagged labels i label); [done|].
      assert (Hfree := split_dot_free (value rule)). rewrite Forall_forall in Hfree.
      apply Hfree. by eapply list_elem_of_lookup_2. }
  destruct Hnew as [Hnew [p Hp']]. split_and!.
  - by rewrite Hnew, length_imap.
  - intros i label new_label Hl Hn. rewrite Hnew, list_lookup_imap, Hl in Hn.
    injection Hn as <-. destruct (flagged labels i label); auto.
  - apply elem_of_dynamic_positions in Hp' as (label & Hl & Hf).
    apply (list_elem_of_lookup_2 _ p). by rewrite Hnew, list_lookup_imap, Hl; cbn; rewrite Hf.
  - apply list_eq. intros i. rewrite !lookup_drop, Hnew, list_lookup_imap.
    destruct (labels !! (length labels - 2 + i)) as [label|] eqn:Hl; [|done]. cbn.
    unfold flagged. apply lookup_lt_Some in Hl.
    rewrite (proj2 (Nat.ltb_ge _ _)) by lia. done.
Qed.

(** ** Inline comments *)

Section InlineComments.

Lemma dot_star_end_lf_free s : lf_free s → dot_star_end s = Some EmptyString.
Proof.
  unfold lf_free. induction s as [|c s IH]; [done|]. cbn [Str.forallb dot_star_end].
  intros [Hc Hs]%andb_prop_elim. destruct (bool_decide (c = "010"%char)); [done|]. auto.
Qed.

Lemma lstrip_blank_app s t : blank s = true → Str.lstrip (s +:+ t) = Str.lstrip t.
Proof.
  unfold blank. induction s as [|c s IH]; [done|]. cbn [Str.forallb].
  intros [Hc Hs]%andb_true_iff. rewrite str_app_cons. cbn [Str.lstrip].
  rewrite Hc. auto.
Qed.

Lemma lstrip_app s t :
  blank s = false →
  ∃ c u, Str.lstrip s = String c u ∧ Str.is_space c = false
         ∧ Str.lstrip (s +:+ t) = String c (u +:+ t).
Proof.
  unfold blank. induction s as [|c s IH]; [done|]. cbn [Str.forallb].
  rewrite str_app_cons. cbn [Str.lstrip].
  destruct (Str.is_space c) eqn:Hc; cbn [andb]; [exact IH|].
  intros _. by exists c, s.
Qed.

Lemma rstrip_blank s : blank s = true → Str.rstrip s = EmptyString.
Proof.
  unfold blank. induction s as [|c s IH]; [done|]. cbn [Str.forallb].
  intros [Hc Hs]%andb_true_iff. by rewrite rstrip_cons, (IH Hs), Hc.
Qed.

Lemma sub_inline_comment_blank s : blank s = true → sub_inline_comment s = s.
Proof.
  unfold blank. induction s as [|c s IH]; [done|]. cbn [Str.forallb].
  intros [Hc Hs]%andb_true_iff. cbn [sub_inline_comment inline_comment_at]. rewrite Hc.
  assert (Str.lstrip s = EmptyString) as ->.
  { clear IH Hc. induction s as [|d s IH]; [done|]. cbn [Str.forallb] in Hs.
    apply andb_true_iff in Hs as [Hd Hs]. cbn [Str.lstrip]. rewrite Hd. auto. }
  cbn. by rewrite (IH Hs).
Qed.

Lemma comment_marker_Some s body :
  comment_marker s = Some body →
  s = String "#" body ∨ s = String ";" body ∨ s = String "/" (String "/" body).
Proof.
  destruct s as [|c s]; [done|].
  destruct c as [[] [] [] [] [] [] [] []]; cbn; try done;
    try (intros [= ->]; tauto).
  destruct s as [|d s]; [done|].
  destruct d as [[] [] [] [] [] [] [] []]; cbn; try done.
  intros [= ->]. tauto.
Qed.

Lemma comment_marker_lf_free s body : lf_free s → comment_marker s = Some body → lf_free body.
Proof.
  unfold lf_free. intros Hs [ -> | [ -> | -> ] ]%comment_marker_Some; cbn [Str.forallb] in Hs;
    repeat (apply andb_prop_elim in Hs as [_ Hs]); done.
Qed.

(** Text appended after a blank does not change whether a comment marker
    opens what is there already. *)
Lemma comment_marker_app c u t :
  comment_marker (String c (u +:+ String " " t)) = None
  ↔ comment_marker (String c u) = None.
Proof.
  destruct c as [[] [] [] [] [] [] [] []]; try done;
    destruct u as [|d u]; try done;
    destruct d as [[] [] [] [] [] [] [] []]; done.
Qed.

Lemma rstrip_lstrip s : Str.rstrip (Str.lstrip s) = Str.lstrip (Str.rstrip s).
Proof.
  induction s as [|c s IH]; [done|]. rewrite rstrip_cons. cbn [Str.lstrip].
  destruct (Str.is_space c) eqn:Hc.
  - rewrite IH. destruct (Str.rstrip s) as [|b r]; [done|]. cbn [Str.lstrip]. by rewrite Hc.
  - rewrite rstrip_cons.
    destruct (Str.rstrip s) as [|b r]; rewrite ?Hc; cbn [Str.lstrip]; by rewrite Hc.
Qed.

Variables (marker comment : string).
Hypothesis marker_ok : marker = "#" ∨ marker = "//" ∨ marker = ";".
Hypothesis comment_lf_free : lf_free comment.

Lemma marker_opens : comment_marker (Str.lstrip (marker +:+ comment)) = Some comment.
Proof. destruct marker_ok as [ -> | [ -> | -> ] ]; done. Qed.

Lemma tail_lf_free s : lf_free s → lf_free (s +:+ " " +:+ marker +:+ comment).
Proof.
  intros Hs. repeat apply forallb_app; [done|done| |done].
  destruct marker_ok as [ -> | [ -> | -> ] ]; done.
Qed.

Lemma sub_inline_comment_tail line :
  lf_free line →
  Str.rstrip (sub_inline_comment (line +:+ " " +:+ marker +:+ comment))
  = Str.rstrip (sub_inline_comment line).
Proof.
  induction line as [|a l IH]; intros Hline.
  - rewrite str_app_nil_l. change (" " +:+ marker +:+ comment)
      with (String " " (marker +:+ comment)).
    cbn [sub_inline_comment inline_comment_at Str.is_space].
    by rewrite marker_opens, dot_star_end_lf_free.
  - assert (Hl : lf_free l).
    { unfold lf_free in *. cbn [Str.forallb] in Hline. by apply andb_prop_elim in Hline as [_ ?]. }
    specialize (IH Hl). rewrite str_app_cons.
    cbn [sub_inline_comment inline_comment_at].
    destruct (Str.is_space a) eqn:Ha.
    + destruct (blank l) eqn:Hblank.
      * change (l +:+ " " +:+ marker +:+ comment)
          with (l +:+ String " " (marker +:+ comment)).
        rewrite lstrip_blank_app by done. cbn [Str.lstrip Str.is_space].
        rewrite marker_opens, dot_star_end_lf_free by done.
        assert (Str.lstrip l = EmptyString) as ->.
        { rewrite <-(str_app_nil_r l), lstrip_blank_app; done. }
        cbn [comment_marker]. rewrite sub_inline_comment_blank by done.
        by rewrite rstrip_cons, (rstrip_blank l Hblank), Ha.
      * destruct (lstrip_app l (" " +:+ marker +:+ comment) Hblank)
          as (c & u & Hls & Hc & Hlsa).
        rewrite Hlsa, Hls.
        change (u +:+ " " +:+ marker +:+ comment)
          with (u +:+ String " " (marker +:+ comment)).
        destruct (comment_marker (String c u)) as [body|] eqn:Hm.
        -- destruct (comment_marker (String c (u +:+ String " " (marker +:+ comment))))
             as [body'|] eqn:Hm'; [|by apply comment_marker_app in Hm'; congruence].
           assert (lf_free body').
           { eapply comment_marker_lf_free; [|exact Hm'].
             change (String c (u +:+ String " " (marker +:+ comment)))
               with (String c u +:+ " " +:+ marker +:+ comment).
             apply tail_lf_free. rewrite <-Hls. by apply forallb_lstrip. }
           assert (lf_free body).
           { eapply comment_marker_lf_free; [|exact Hm]. rewrite <-Hls. by apply forallb_lstrip. }
           by rewrite !dot_star_end_lf_free.
        -- rewrite (proj2 (comment_marker_app c u (marker +:+ comment)) Hm).
           by rewrite !rstrip_cons, IH.
    + by rewrite !rstrip_cons, IH.
Qed.

End InlineComments.

(** X23. Inline comments are ignored: on a line without a line feed, a blank,
    one of the markers [#], [//] and [;] and any text after them do not
    change what [strip_inline_comment] returns. *)
Theorem inline_comment_ignored (line marker comment : string) :
  marker = "#" ∨ marker = "//" ∨ marker = ";" →
  lf_free line → lf_free comment →
  strip_inline_comment (line +:+ " " +:+ marker +:+ comment) = strip_inline_comment line.
Proof.
  intros Hm Hline Hc. unfold strip_inline_comment, Str.strip.
  by rewrite !rstrip_lstrip, sub_inline_comment_tail.
Qed.

(** ** The further properties at work *)

(** The accepted candidates and the output on the mixed list. *)
Example mixed_emissions : emissions Mixed.rules = [Mixed.em_ads; Mixed.em_tracker].
Proof. vm_compute. reflexivity. Qed.

Example mixed_simplified :
  simplify_rules Mixed.rules
  = [Mixed.cidr; Examples.wildcard_ads; Examples.regex_tracker].
Proof. vm_compute. reflexivity. Qed.

Lemma options_uniform_witness :
  let rule := Examples.domain "x.ads.example.com" in
  Mixed.em_ads ∈ emissions Mixed.rules
  ∧ 0 ∈ em_active Mixed.em_ads
  ∧ remaining_rules Mixed.rules !! 0 = Some rule
  ∧ options rule = options (em_rule Mixed.em_ads).
Proof.
  intros rule.
  assert (H1 : Mixed.em_ads ∈ emissions Mixed.rules)
    by (apply (list_elem_of_lookup_2 _ 0); vm_compute; reflexivity).
  assert (H2 : 0 ∈ em_active Mixed.em_ads)
    by (apply elem_of_union; left; by apply elem_of_singleton).
  assert (H3 : remaining_rules Mixed.rules !! 0 = Some rule) by (vm_compute; reflexivity).
  split_and!; [done..|]. exact (options_uniform Mixed.rules Mixed.em_ads 0 rule H1 H2 H3).
Defined.

Lemma rules_accounted_witness :
  let r := Examples.domain "x.ads.example.com" in
  r ∈ Mixed.rules
  ∧ (r ∈ simplify_rules Mixed.rules
     ∨ (∃ promoted_rule,
          promote_dynamic_labels r = Some promoted_rule
          ∧ promoted_rule ∈ simplify_rules Mixed.rules)
     ∨ (∃ em idx,
          em ∈ emissions Mixed.rules ∧ idx ∈ em_active em
          ∧ remaining_rules Mixed.rules !! idx = Some r
          ∧ em_rule em ∈ simplify_rules Mixed.rules)).
Proof.
  intros r. assert (H : r ∈ Mixed.rules) by apply list_elem_of_here.
  split; [exact H|]. exact (rules_accounted Mixed.rules r H).
Defined.

Lemma other_rules_kept_witness :
  Mixed.cidr ∈ Mixed.rules
  ∧ ¬ (rtype Mixed.cidr = "DOMAIN" ∧ 3 ≤ length (Str.split "." (value Mixed.cidr)))
  ∧ Mixed.cidr ∈ simplify_rules Mixed.rules.
Proof.
  assert (H1 : Mixed.cidr ∈ Mixed.rules) by (do 4 apply list_elem_of_further; apply list_elem_of_here).
  assert (H2 : ¬ (rtype Mixed.cidr = "DOMAIN"
                  ∧ 3 ≤ length (Str.split "." (value Mixed.cidr))))
    by (intros [H _]; discriminate H).
  split_and!; [done..|]. exact (other_rules_kept Mixed.rules Mixed.cidr H1 H2).
Defined.

Lemma simplify_rules_provenance_witness :
  Examples.wildcard_ads ∈ simplify_rules Mixed.rules
  ∧ (Examples.wildcard_ads ∈ Mixed.rules
     ∨ rtype Examples.wildcard_ads = "DOMAIN-WILDCARD"
     ∨ rtype Examples.wildcard_ads = "DOMAIN-REGEX").
Proof.
  assert (H : Examples.wildcard_ads ∈ simplify_rules Mixed.rules)
    by (apply (list_elem_of_lookup_2 _ 1); vm_compute; reflexivity).
  split; [exact H|]. exact (simplify_rules_provenance Mixed.rules _ H).
Defined.

Lemma candidates_bounded_witness :
  let remaining := remaining_rules Mixed.rules in
  ((["ads"; "example"; "com"], 1), ({[0; 1]} : gset nat)) ∈ build_suffix_map remaining
  ∧ 2 ≤ length ["ads"; "example"; "com"] ≤ 5
  ∧ 1 ≤ 1
  ∧ ({[0; 1]} : gset nat) ≠ ∅
  ∧ (length ["ads"; "example"; "com"] <? 2)
    || bool_decide (Str.join "." ["ads"; "example"; "com"] ∈ GENERIC_SUFFIXES) = false.
Proof.
  intros remaining.
  assert (H : ((["ads"; "example"; "com"], 1), ({[0; 1]} : gset nat))
              ∈ build_suffix_map remaining).
  { apply (list_elem_of_lookup_2 _ 1). vm_compute. reflexivity. }
  split; [exact H|]. exact (candidates_bounded remaining _ _ _ H).
Defined.

Lemma consumed_once_witness :
  emissions Mixed.rules !! 0 = Some Mixed.em_ads
  ∧ emissions Mixed.rules !! 1 = Some Mixed.em_tracker
  ∧ 0 ≠ 1
  ∧ em_active Mixed.em_ads ## em_active Mixed.em_tracker.
Proof.
  assert (H1 : emissions Mixed.rules !! 0 = Some Mixed.em_ads) by (vm_compute; reflexivity).
  assert (H2 : emissions Mixed.rules !! 1 = Some Mixed.em_tracker)
    by (vm_compute; reflexivity).
  assert (H3 : 0 ≠ 1) by lia.
  split_and!; [done..|]. exact (consumed_once Mixed.rules 0 1 _ _ H1 H2 H3).
Defined.

Lemma emissions_by_priority_witness :
  emissions Mixed.rules !! 0 = Some Mixed.em_ads
  ∧ emissions Mixed.rules !! 1 = Some Mixed.em_tracker
  ∧ 0 < 1
  ∧ ranked_before (em_key Mixed.em_ads) (em_key Mixed.em_tracker).
Proof.
  assert (H1 : emissions Mixed.rules !! 0 = Some Mixed.em_ads) by (vm_compute; reflexivity).
  assert (H2 : emissions Mixed.rules !! 1 = Some Mixed.em_tracker)
    by (vm_compute; reflexivity).
  assert (H3 : 0 < 1) by lia.
  split_and!; [done..|]. exact (emissions_by_priority Mixed.rules 0 1 _ _ H1 H2 H3).
Defined.

Lemma simplify_rules_only_dedup_witness :
  let rules := [Mixed.cidr; Examples.domain "example.com"; Mixed.cidr] in
  (∀ r, r ∈ rules → ¬ (rtype r = "DOMAIN" ∧ 3 ≤ length (Str.split "." (value r))))
  ∧ simplify_rules rules = unique_from ∅ rules
  ∧ unique_from ∅ rules = [Mixed.cidr; Examples.domain "example.com"].
Proof.
  intros rules.
  assert (H : ∀ r, r ∈ rules
                   → ¬ (rtype r = "DOMAIN" ∧ 3 ≤ length (Str.split "." (value r)))).
  { intros r Hr [Ht Hlen].
    repeat (apply elem_of_cons in Hr as [->|Hr];
            [first [discriminate Ht|vm_compute in Hlen; lia]|]).
    by apply elem_of_nil in Hr. }
  split_and!; [exact H|exact (simplify_rules_only_dedup rules H)|].
  vm_compute. reflexivity.
Defined.

Lemma parse_quanx_normalized_witness :
  let r := mkRule "DOMAIN-SUFFIX" "example.com" ["no-resolve"] in
  r ∈ parse_quanx "host-suffix, Example.COM , reject, no-resolve  # ads"
  ∧ is_Some (TYPE_ORDER !! rtype r) ∧ normalized r.
Proof.
  intros r.
  assert (H : r ∈ parse_quanx "host-suffix, Example.COM , reject, no-resolve  # ads")
    by apply list_elem_of_here.
  split; [exact H|]. exact (parse_quanx_normalized _ r H).
Defined.

Lemma parse_surge_normalized_witness :
  let r := mkRule "DOMAIN-REGEX" "^ads\d+\.example\.com$" ["extra"] in
  r ∈ parse_surge "domain-regex, ads\d+\.example\.com , extra ; note"
  ∧ Str.upper (rtype r) = rtype r ∧ normalized r.
Proof.
  intros r.
  assert (H : r ∈ parse_surge "domain-regex, ads\d+\.example\.com , extra ; note")
    by apply list_elem_of_here.
  split; [exact H|]. exact (parse_surge_normalized _ r H).
Defined.

Lemma to_line_decodes_witness :
  let r1 := mkRule "IP-CIDR" "10.0.0.0/8" ["no-resolve"] in
  let r2 := mkRule "IP-CIDR" "10.0.0.0/8" [] in
  Forall comma_free (rtype r1 :: value r1 :: options r1)
  ∧ Forall comma_free (rtype r2 :: value r2 :: options r2)
  ∧ Str.split "," (to_line r1) = rtype r1 :: value r1 :: options r1
  ∧ (to_line r1 = to_line r2 → r1 = r2).
Proof.
  intros r1 r2.
  assert (H1 : Forall comma_free (rtype r1 :: value r1 :: options r1))
    by (by repeat apply Forall_cons_2).
  assert (H2 : Forall comma_free (rtype r2 :: value r2 :: options r2))
    by (by repeat apply Forall_cons_2).
  split_and!; [done..| |].
  - exact (proj1 (to_line_decodes r1 r2 H1 H2)).
  - exact (proj2 (to_line_decodes r1 r2 H1 H2)).
Defined.

Lemma sort_key_to_line_witness :
  comma_free (rtype Mixed.cidr)
  ∧ sort_key (to_line Mixed.cidr) = (5%Z, "IP-CIDR", "10.0.0.0/8,no-resolve").
Proof.
  assert (H : comma_free (rtype Mixed.cidr)) by done.
  split; [exact H|]. exact (sort_key_to_line Mixed.cidr H).
Defined.

Lemma run_success_witness :
  Forall (answers answering_world) SOURCES
  ∧ mkdir_returns answering_world
  ∧ write_returns answering_world
  ∧ ∃ log,
      run answering_world
      = (0, log ++ [Mkdir (TARGET_DIR answering_world);
                    WriteText (TARGET_PATH answering_world) (output_text answering_world)])
      ∧ fetched log = url <$> SOURCES
      ∧ written log = []
      ∧ Forall (λ ev, ∀ path, ev ≠ Mkdir path) log.
Proof.
  assert (H : Forall (answers answering_world) SOURCES).
  { repeat apply Forall_cons_2; [eexists; reflexivity..|apply Forall_nil_2]. }
  assert (Hmkdir : mkdir_returns answering_world) by reflexivity.
  assert (Hwrite : write_returns answering_world) by reflexivity.
  split_and!; [exact H|exact Hmkdir|exact Hwrite|].
  exact (run_success answering_world H Hmkdir Hwrite).
Defined.

(** Every source answers and the target file cannot be opened: the run
    calls [write_text] and ends with status 1. *)
Example run_read_only_world :
  Forall (answers read_only_world) SOURCES
  ∧ mkdir_returns read_only_world
  ∧ (run read_only_world).1 = 1
  ∧ last (run read_only_world).2
    = Some (Traceback
              "PermissionError: [Errno 13] Permission denied: '/repo/ruleset/reject.list'")
  ∧ written (run read_only_world).2
    = [(TARGET_PATH read_only_world, output_text read_only_world)].
Proof.
  split_and!; [|reflexivity|vm_compute; reflexivity..].
  repeat apply Forall_cons_2; [eexists; reflexivity..|apply Forall_nil_2].
Qed.

Lemma failed_fetch_ends_run_witness :
  (∃ source, source ∈ SOURCES ∧ ¬ answers failing_world source)
  ∧ ∃ before source after,
      SOURCES = before ++ source :: after
      ∧ Forall (answers failing_world) before
      ∧ ¬ answers failing_world source
      ∧ (run failing_world).1 = 1
      ∧ (∀ exc, urlopen failing_world (url source) = RaisesURLError exc →
           last (run failing_world).2
           = Some (Stderr ("Failed to download " +:+ url source +:+ ": " +:+ exc)))
      ∧ (∀ exc, urlopen failing_world (url source) = RaisesOther exc →
           last (run failing_world).2 = Some (Traceback exc))
      ∧ written (run failing_world).2 = []
      ∧ Forall (λ ev, ∀ path, ev ≠ Mkdir path) (run failing_world).2
      ∧ fetched (run failing_world).2 = url <$> (before ++ [source])
      ∧ NoDup (fetched (run failing_world).2).
Proof.
  assert (H : ∃ source, source ∈ SOURCES ∧ ¬ answers failing_world source).
  { exists (mkSource "quanx"
              "https://raw.githubusercontent.com/Elysian-Realme/FuGfConfig/main/ConfigFile/QuantumultX/FuckRogueSoftwareRules.conf"
              "FuckRogueSoftwareRules (Quantumult X)").
    split; [apply list_elem_of_further, list_elem_of_here|].
    intros [text Htext]. vm_compute in Htext. discriminate Htext. }
  split; [exact H|]. exact (failed_fetch_ends_run failing_world H).
Defined.

Lemma promoted_labels_witness :
  let rule := mkRule "DOMAIN" "ab12.c3d4e.track.example.com" ["x"] in
  let promoted_rule := mkRule "DOMAIN-WILDCARD" "*.*.track.example.com" ["x"] in
  let labels := Str.split "." (value rule) in
  let new_labels := Str.split "." (value promoted_rule) in
  promote_dynamic_labels rule = Some promoted_rule
  ∧ length new_labels = length labels
  ∧ (∀ i label new_label,
       labels !! i = Some label → new_labels !! i = Some new_label →
       new_label = label ∨ (new_label = "*" ∧ flagged labels i label = true))
  ∧ "*" ∈ new_labels
  ∧ drop (length labels - 2) new_labels = drop (length labels - 2) labels.
Proof.
  intros rule promoted_rule labels new_labels.
  assert (H : promote_dynamic_labels rule = Some promoted_rule) by reflexivity.
  split; [exact H|]. exact (promoted_labels rule promoted_rule H).
Defined.

Lemma inline_comment_ignored_witness :
  ("//" = "#" ∨ "//" = "//" ∨ "//" = ";")
  ∧ lf_free "DOMAIN,foo.bar  " ∧ lf_free " blocked; see #12"
  ∧ strip_inline_comment ("DOMAIN,foo.bar  " +:+ " " +:+ "//" +:+ " blocked; see #12")
    = strip_inline_comment "DOMAIN,foo.bar  ".
Proof.
  assert (H1 : "//" = "#" ∨ "//" = "//" ∨ "//" = ";") by (right; left; reflexivity).
  assert (H2 : lf_free "DOMAIN,foo.bar  ") by done.
  assert (H3 : lf_free " blocked; see #12") by done.
  split_and!; [done..|]. exact (inline_comment_ignored _ _ _ H1 H2 H3).
Defined.
